(** * 2048: the game logic of [src/game.py], embedded and verified

    The class [Game] holds a square grid of integers, a score and the side
    length of the grid.  Its methods are embedded here one by one, under
    their own names.  Python integers are unbounded, so a cell is a [Z];
    a row is a [list Z] and the grid a list of rows.  An index that falls
    outside a list raises [IndexError] in Python: such reads are modelled
    by stdpp's partial lookup [!!] inside the [option] monad, so that an
    aborted call is [None].

    A grid is a value here: its rows are taken to be distinct list
    objects, as they are in every grid that the class builds itself
    ([reset], the moves, the transposition and the reversal all allocate
    new rows).  The draws of the module [random] are explicit arguments. *)

From Stdlib Require Import ZArith Lia.
From stdpp Require Import base tactics option numbers list strings
  pretty gmap.

Set Default Proof Using "Type".

(** ** Line primitives *)

Module Line.

(** [_compress_line]: the non-zero values, then zeros up to the old length. *)
Definition _compress_line (line : list Z) : list Z :=
  let new := filter (λ v, v ≠ 0%Z) line in
  new ++ replicate (length line - length new) 0%Z.

(** One iteration of the loop of [_merge_line], at index [i].  The loop
    runs over [range(len(compressed) - 1)], so both [i] and [i + 1] are
    valid indices and the total lookup [!!!] reads what Python reads. *)
Definition merge_at (st : list Z * Z) (i : nat) : list Z * Z :=
  let '(compressed, gained) := st in
  if decide (compressed !!! i ≠ 0%Z ∧ compressed !!! i = compressed !!! (i + 1))
  then
    let compressed := <[i := (compressed !!! i * 2)%Z]> compressed in
    let compressed := <[i + 1 := 0%Z]> compressed in
    (compressed, (gained + compressed !!! i)%Z)
  else (compressed, gained).

Definition _merge_line (line : list Z) : list Z * Z :=
  let compressed := _compress_line line in
  let '(compressed, gained) :=
    foldl merge_at (compressed, 0%Z) (seq 0 (length compressed - 1)) in
  (_compress_line compressed, gained).

(** The merge scan read off the list structure: [scan_from a rest] is the
    effect of the loop on the cells [a :: rest] that it has not visited
    yet.  It is used for reasoning only; [merge_scan_spec] below relates
    it to the loop. *)
Fixpoint scan_from (a : Z) (rest : list Z) : list Z * Z :=
  match rest with
  | [] => ([a], 0%Z)
  | b :: rest' =>
      if decide (a ≠ 0%Z ∧ a = b)
      then let '(l, g) := scan_from 0 rest' in ((a * 2)%Z :: l, (a * 2 + g)%Z)
      else let '(l, g) := scan_from b rest' in (a :: l, g)
  end.

Definition scan (l : list Z) : list Z * Z :=
  match l with
  | [] => ([], 0%Z)
  | a :: rest => scan_from a rest
  end.

(** Number of tiles (non-zero cells) of a line, and the sum of its cells. *)
Definition tiles (l : list Z) : nat := length (filter (λ v, v ≠ 0%Z) l).
Definition line_sum (l : list Z) : Z := foldr Z.add 0%Z l.

(** A line is mergeable when two neighbours hold the same non-zero value. *)
Fixpoint has_pair (l : list Z) : bool :=
  match l with
  | a :: (b :: _) as rest => bool_decide (a ≠ 0%Z ∧ a = b) || has_pair rest
  | _ => false
  end.

End Line.
Export Line.

(** ** The session: grid, score and the random source *)

Module Session.

(** The dataclass [Game].  [size] is the side length; [range(size)] is
    empty for a size below one, as [seq 0 size] is. *)
Record Game := mkGame {
  size : nat;
  grid : list (list Z);
  score : Z
}.

Definition with_grid (g : list (list Z)) (s : Game) : Game :=
  mkGame (size s) g (score s).

(** What one call of [spawn_random] draws from the module [random]:
    [choice] is the integer behind [random.choice] (the element returned
    is the one at index [choice mod len]), and [lt_one_tenth] is the
    outcome of the test [random.random() < 0.1]. *)
Record Draw := mkDraw {
  choice : nat;
  lt_one_tenth : bool
}.

(** [grid[r][c]], which raises when [r] or [c] is out of range. *)
Definition cell (g : list (list Z)) (r c : nat) : option Z :=
  row ← g !! r; row !! c.

(** [grid[r][c] = v] *)
Definition set_cell (r c : nat) (v : Z) (g : list (list Z)) : list (list Z) :=
  alter (<[c := v]>) r g.

(** The index pairs of [for r in range(n) for c in range(m)], in order. *)
Definition range2 (n m : nat) : list (nat * nat) :=
  r ← seq 0 n; c ← seq 0 m; [(r, c)].

(** A [for] loop whose body may raise: the state is threaded from left to
    right and the first failure aborts the loop. *)
Fixpoint for_each {A S} (body : S → A → option S) (st : S) (l : list A)
  : option S :=
  match l with
  | [] => Some st
  | x :: l' => st' ← body st x; for_each body st' l'
  end.

(** A [for] loop whose body is [if test: return True]; it falls through
    with [false] when no test succeeds. *)
Fixpoint any_of {A} (test : A → option bool) (l : list A) : option bool :=
  match l with
  | [] => Some false
  | x :: l' => b ← test x; if b : bool then Some true else any_of test l'
  end.

(** The list comprehension of [spawn_random]: every cell of the
    [size] x [size] square is read, the coordinates of the zeros are kept. *)
Definition empty_cells (s : Game) : option (list (nat * nat)) :=
  cells ← mapM (λ rc, v ← cell (grid s) rc.1 rc.2; Some (rc, v))
               (range2 (size s) (size s));
  Some ((filter (λ x, x.2 = 0%Z) cells).*1).

(** [4 if random.random() < 0.1 else 2] *)
Definition new_tile (d : Draw) : Z := if lt_one_tenth d then 4%Z else 2%Z.

(** The pair returned by [random.choice] was read from the grid when
    [empty] was built, so the assignment to [grid[r][c]] is in range. *)
Definition spawn_random (d : Draw) (s : Game) : option Game :=
  empty ← empty_cells s;
  if decide (empty = []) then Some s
  else
    let '(r, c) := empty !!! (choice d mod length empty) in
    Some (with_grid (set_cell r c (new_tile d) (grid s)) s).

(** [reset]: [START_TILES] is 2, hence two spawns and two draws. *)
Definition reset (d1 d2 : Draw) (s : Game) : option Game :=
  let s := mkGame (size s) (replicate (size s) (replicate (size s) 0%Z)) 0 in
  s ← spawn_random d1 s;
  spawn_random d2 s.

(** The body of the loop of [move_left], on the triple
    (grid, moved, total_gained). *)
Definition move_row (st : list (list Z) * bool * Z) (r : nat)
  : option (list (list Z) * bool * Z) :=
  let '(g, moved, total_gained) := st in
  row ← g !! r;
  let '(new_line, gained) := _merge_line row in
  if decide (new_line ≠ row)
  then Some (<[r := new_line]> g, true, (total_gained + gained)%Z)
  else Some (g, moved, total_gained).

(** The loop of [move_left] alone. *)
Definition merge_rows (s : Game) : option (list (list Z) * bool * Z) :=
  for_each move_row (grid s, false, 0%Z) (seq 0 (size s)).

Definition move_left (d : Draw) (s : Game) : option (bool * Game) :=
  '(g, moved, total_gained) ← merge_rows s;
  if moved : bool
  then s' ← spawn_random d (mkGame (size s) g (score s + total_gained));
       Some (true, s')
  else Some (false, with_grid g s).

(** Python's [zip] applied to the unpacked list of rows: the columns of
    [rows], as many as the shortest row has cells; no column at all for an
    empty list of rows. *)
Fixpoint zip_star (rows : list (list Z)) : list (list Z) :=
  match rows with
  | [] => []
  | [row] => (λ x, [x]) <$> row
  | row :: rows' => zip_with cons row (zip_star rows')
  end.

Definition _transpose_grid (s : Game) : Game :=
  with_grid (zip_star (grid s)) s.

Definition _reverse_grid (s : Game) : Game :=
  with_grid (reverse <$> grid s) s.

Definition move_right (d : Draw) (s : Game) : option (bool * Game) :=
  let s := _reverse_grid s in
  '(moved, s) ← move_left d s;
  Some (moved, _reverse_grid s).

Definition move_up (d : Draw) (s : Game) : option (bool * Game) :=
  let s := _transpose_grid s in
  '(moved, s) ← move_left d s;
  Some (moved, _transpose_grid s).

Definition move_down (d : Draw) (s : Game) : option (bool * Game) :=
  let s := _transpose_grid s in
  '(moved, s) ← move_right d s;
  Some (moved, _transpose_grid s).

Definition can_move (s : Game) : option bool :=
  let g := grid s in
  b ← any_of (λ '(r, c), v ← cell g r c; Some (bool_decide (v = 0%Z)))
             (range2 (size s) (size s));
  if b : bool then Some true else
  b ← any_of (λ '(r, c), v ← cell g r c; w ← cell g r (c + 1);
                          Some (bool_decide (v = w)))
             (range2 (size s) (size s - 1));
  if b : bool then Some true else
  any_of (λ '(c, r), v ← cell g r c; w ← cell g (r + 1) c;
                     Some (bool_decide (v = w)))
         (range2 (size s) (size s - 1)).

End Session.
Export Session.

(** ** The four moves, uniformly *)

Inductive Dir := Left | Right | Up | Down.

Definition move (dir : Dir) : Draw → Game → option (bool * Game) :=
  match dir with
  | Left => move_left
  | Right => move_right
  | Up => move_up
  | Down => move_down
  end.

(** The grid on which the loop of [move_left] runs during a move in
    direction [dir], and the way back. *)
Definition to_left (dir : Dir) (g : list (list Z)) : list (list Z) :=
  match dir with
  | Left => g
  | Right => reverse <$> g
  | Up => zip_star g
  | Down => reverse <$> zip_star g
  end.

Definition from_left (dir : Dir) (g : list (list Z)) : list (list Z) :=
  match dir with
  | Left => g
  | Right => reverse <$> g
  | Up => zip_star g
  | Down => zip_star (reverse <$> g)
  end.

(** The merged grid of a move: every row of the grid seen from the left
    goes through [_merge_line]; nothing is spawned. *)
Definition merge_grid (g : list (list Z)) : list (list Z) :=
  (λ row, (_merge_line row).1) <$> g.

Definition move_grid (dir : Dir) (g : list (list Z)) : list (list Z) :=
  from_left dir (merge_grid (to_left dir g)).

(** The sum of the scores gained by the rows. *)
Definition gained_sum (g : list (list Z)) : Z :=
  line_sum ((λ row, (_merge_line row).2) <$> g).

(** Some row is changed by [_merge_line]. *)
Definition some_row_changes (g : list (list Z)) : bool :=
  existsb (λ row, bool_decide ((_merge_line row).1 ≠ row)) g.

Definition grid_sum (g : list (list Z)) : Z := line_sum (line_sum <$> g).

Definition grid_tiles (g : list (list Z)) : nat :=
  sum_list (tiles <$> g).

(** A square grid of side [n]. *)
Definition square (n : nat) (g : list (list Z)) : Prop :=
  length g = n ∧ Forall (λ row, length row = n) g.

Definition well_formed (s : Game) : Prop := square (size s) (grid s).

(** A cell is empty or holds 2, 4, 8, ... *)
Definition is_tile (v : Z) : Prop :=
  v = 0%Z ∨ ∃ k : nat, v = (2 ^ Z.of_nat (S k))%Z.

Definition tiles_ok (g : list (list Z)) : Prop := Forall (Forall is_tile) g.

(** [g'] is [g] with the tile [v] put on one of its empty cells. *)
Definition placed (n : nat) (v : Z) (g g' : list (list Z)) : Prop :=
  square n g ∧ ∃ r c, cell g r c = Some 0%Z ∧ g' = set_cell r c v g.

(** A move that transforms the grid by [f], runs another move and
    transforms the grid by [f] again. *)
Definition conjugate (f : list (list Z) → list (list Z))
    (mv : Draw → Game → option (bool * Game)) (d : Draw) (s : Game)
  : option (bool * Game) :=
  let s := with_grid (f (grid s)) s in
  '(moved, s) ← mv d s;
  Some (moved, with_grid (f (grid s)) s).

(** What a move does on a well-formed session, for a move whose loop runs
    on the grid [tl g] and which hands back the grid through [fl]. *)
Definition move_spec (mv : Draw → Game → option (bool * Game))
    (tl fl : list (list Z) → list (list Z)) : Prop :=
  ∀ d s, well_formed s →
    ∃ s', mv d s = Some (some_row_changes (tl (grid s)), s') ∧
          size s' = size s ∧ well_formed s' ∧
          if some_row_changes (tl (grid s))
          then score s' = (score s + gained_sum (tl (grid s)))%Z ∧
               placed (size s) (new_tile d) (fl (merge_grid (tl (grid s))))
                      (grid s')
          else s' = s.

(** The three reasons for which [can_move] answers [True]. *)
Definition has_empty (g : list (list Z)) : Prop :=
  ∃ r c, cell g r c = Some 0%Z.
Definition has_row_pair (g : list (list Z)) : Prop :=
  ∃ r c v, cell g r c = Some v ∧ cell g r (c + 1) = Some v.
Definition has_column_pair (g : list (list Z)) : Prop :=
  ∃ r c v, cell g r c = Some v ∧ cell g (r + 1) c = Some v.

(** The session on which [spawn_random] is called during a move in
    direction [dir] that changes a row: the merged grid, still seen from
    the left, and the new score. *)
Definition spawn_point (dir : Dir) (s : Game) : Game :=
  mkGame (size s) (merge_grid (to_left dir (grid s)))
         (score s + gained_sum (to_left dir (grid s))).

(** The session on which [reset] calls [spawn_random] first. *)
Definition cleared (s : Game) : Game :=
  mkGame (size s) (replicate (size s) (replicate (size s) 0%Z)) 0.

(** ** Concrete sessions used as examples *)

Definition locked_game : Game :=
  mkGame 4 [[2; 4; 2; 4]; [4; 2; 4; 2]; [2; 4; 2; 4]; [4; 2; 4; 2]]%Z 0.

Definition sample_game : Game :=
  mkGame 4 [[2; 2; 0; 0]; [0; 0; 0; 0]; [0; 4; 0; 4]; [2; 4; 8; 16]]%Z 0.

Definition packed_game : Game :=
  mkGame 4 [[2; 4; 0; 0]; [8; 0; 0; 0]; [0; 0; 0; 0]; [2; 4; 8; 16]]%Z 12.

Definition remerge_grid : list (list Z) :=
  [[2; 2; 4; 0]; [0; 0; 0; 0]; [0; 0; 0; 0]; [0; 0; 0; 0]]%Z.

(** ** The rest of the class [Game] *)

(** The module constants [GRID_SIZE] and [START_TILES]. *)
Definition GRID_SIZE : nat := 4.
Definition START_TILES : nat := 2.

(** [is_win]: Python's [any] over the generator stops at the first cell
    that reaches the target; a read out of range raises. *)
Definition is_win (target : Z) (s : Game) : option bool :=
  any_of (λ '(r, c), v ← cell (grid s) r c;
                     Some (bool_decide (target ≤ v)%Z))
         (range2 (size s) (size s)).

(** [__post_init__]: an empty grid is falsy, and only then [reset] runs. *)
Definition __post_init__ (d1 d2 : Draw) (s : Game) : option Game :=
  if decide (grid s = []) then reset d1 d2 s else Some s.

(** [Game()], with the defaults of the dataclass. *)
Definition new_game (d1 d2 : Draw) : option Game :=
  __post_init__ d1 d2 (mkGame GRID_SIZE [] 0).

(** A line in which [c] and [c + 1] hold the same tile. *)
Definition adjacent_tiles (l : list Z) : Prop :=
  ∃ c v, v ≠ 0%Z ∧ l !! c = Some v ∧ l !! S c = Some v.

(** Some cell of the grid holds a tile. *)
Definition has_tile (g : list (list Z)) : Prop :=
  ∃ r c v, cell g r c = Some v ∧ v ≠ 0%Z.

(** No row holds an empty cell or two equal neighbours. *)
Definition locked_rows (g : list (list Z)) : Prop :=
  ∀ row, row ∈ g → (0%Z ∉ row) ∧ ¬ adjacent_tiles row.

(** ** The window: [src/ui.py]

    The canvas, the pop-up windows and the high-score file belong to
    Tkinter and to the file system.  The methods of [GameUI] are embedded
    with the calls they make to them recorded, in order, as a list of
    events. *)

Module UI.

(** The canvas items that [_draw_static_board] creates and [update_ui]
    configures. *)
Inductive Item :=
  | score_text
  | highscore_text
  | cell_items (r c : nat)
  | cell_texts (r c : nat).

Inductive Event :=
  (** [canvas.itemconfigure(item, fill=color, outline=color)] *)
  | item_fill (item : Item) (color : string)
  (** [canvas.itemconfigure(item, text=text)], with
      [font=("Helvetica", size, "bold")] when a size is given *)
  | item_text (item : Item) (text : string) (font_size : option Z)
  (** [save_highscore(value)] *)
  | highscore_saved (value : Z)
  (** [_show_message(title, message)] *)
  | message_shown (title message : string).

(** [GRID_SIZE] of [ui.py]. *)
Definition UI_GRID_SIZE : nat := 4.

Definition EMPTY_CELL_COLOR : string := "#cdc1b4".

(** The dictionary [TILE_COLORS], entry by entry. *)
Definition TILE_COLORS_items : list (Z * string) :=
  [ (0, EMPTY_CELL_COLOR); (2, "#eee4da"); (4, "#ede0c8"); (8, "#f2b179");
    (16, "#f59563"); (32, "#f67c5f"); (64, "#f65e3b"); (128, "#edcf72");
    (256, "#edcc61"); (512, "#edc850"); (1024, "#edc53f");
    (2048, "#edc22e") ]%Z.

Definition TILE_COLORS : gmap Z string := list_to_map TILE_COLORS_items.

(** [max(k for k in TILE_COLORS.keys() if isinstance(k, int))]: every key
    is an integer, and the dictionary is not empty. *)
Definition max_key : Z :=
  match TILE_COLORS_items.*1 with
  | [] => 0%Z
  | k :: ks => foldl Z.max k ks
  end.

(** [TILE_COLORS.get(val, TILE_COLORS[max_key])] *)
Definition tile_color (val : Z) : string :=
  default (TILE_COLORS !!! max_key) (TILE_COLORS !! val).

(** The two calls of [update_ui] for the cell at row [r] and column [c]. *)
Definition draw_cell (r c : nat) (val : Z) : list Event :=
  [ item_fill (cell_items r c) (tile_color val);
    if decide (val = 0%Z)
    then item_text (cell_texts r c) "" None
    else item_text (cell_texts r c) (pretty val)
                   (Some (if decide (val < 1024)%Z then 24%Z else 18%Z)) ].

(** The object [GameUI]: the session it drives and the high score. *)
Record GameUI := mkUI {
  game : Game;
  highscore : Z
}.

(** [update_ui]: the two texts, then the cells of the first [GRID_SIZE]
    rows and columns of the grid, read one by one. *)
Definition update_ui (ui : GameUI) : option (list Event) :=
  cells ← mapM (λ rc, val ← cell (grid (game ui)) rc.1 rc.2;
                      Some (draw_cell rc.1 rc.2 val))
               (range2 UI_GRID_SIZE UI_GRID_SIZE);
  Some ([ item_text score_text ("Score: " +:+ pretty (score (game ui))) None;
          item_text highscore_text
                    ("Highscore: " +:+ pretty (highscore ui)) None ]
        ++ concat cells).

Definition win_message : string :=
  "Congratulations — you reached 2048! Press R to play again.".

Definition game_over_message (final : Z) : string :=
  "No moves left. Final score: " +:+ pretty final
  +:+ ". Press R to restart.".

(** [_key_move(move_fn)], where [move_fn] is the move of the session in
    direction [dir], as [_bind_keys] binds it. *)
Definition _key_move (dir : Dir) (d : Draw) (ui : GameUI)
  : option (GameUI * list Event) :=
  '(moved, g) ← move dir d (game ui);
  let ui := mkUI g (highscore ui) in
  if moved : bool then
    drawn ← update_ui ui;
    let '(ui, saved) :=
      if decide (highscore ui < score (game ui))%Z
      then (mkUI (game ui) (score (game ui)),
            [highscore_saved (score (game ui))])
      else (ui, []) in
    won ← is_win 2048 (game ui);
    shown ←
      (if won : bool then Some [message_shown "You Win!" win_message]
       else
         playable ← can_move (game ui);
         if playable : bool then Some []
         else Some [message_shown "Game Over"
                                  (game_over_message (score (game ui)))]);
    Some (ui, drawn ++ saved ++ shown)
  else Some (ui, []).

(** [restart] *)
Definition restart (d1 d2 : Draw) (ui : GameUI)
  : option (GameUI * list Event) :=
  g ← reset d1 d2 (game ui);
  let ui := mkUI g (highscore ui) in
  drawn ← update_ui ui;
  Some (ui, drawn).

End UI.
Export UI.

(** The events that only configure the item of a cell. *)
Definition cell_event (e : Event) : Prop :=
  match e with
  | item_fill (cell_items _ _) _ | item_text (cell_texts _ _) _ _ => True
  | _ => False
  end.

(** What [_key_move] saves and shows after a successful move that leaves
    the session [g], the high score being [hs] before the move. *)
Definition saved_events (hs : Z) (g : Game) : list Event :=
  if decide (hs < score g)%Z then [highscore_saved (score g)] else [].

Definition shown_events (won playable : bool) (g : Game) : list Event :=
  if won then [message_shown "You Win!" win_message]
  else if playable then []
  else [message_shown "Game Over" (game_over_message (score g))].

(** Sessions one move away from a stalemate and from a win. *)
Definition last_move_game : Game :=
  mkGame 4 [[2; 4; 2; 4]; [4; 2; 4; 2]; [2; 4; 2; 4]; [0; 4; 2; 8]]%Z 0.

Definition winning_game : Game :=
  mkGame 4 [[1024; 1024; 0; 0]; [0; 0; 0; 0]; [0; 0; 0; 0]; [0; 0; 0; 0]]%Z 0.

(** ** Lines and coordinates of a move *)

(** The place on the grid, as (row, column), of the cell at position [j]
    of line [i] when a grid of side [n] is read in the direction of a
    move.  The lines are the rows for [Left] and [Right] and the columns
    for [Up] and [Down]; position 0 is the cell towards which the tiles
    slide. *)
Definition coord (dir : Dir) (n i j : nat) : nat * nat :=
  match dir with
  | Left => (i, j)
  | Right => (i, n - S j)
  | Up => (j, i)
  | Down => (n - S j, i)
  end.

(** Line [i] of the grid, read cell by cell in the direction of the
    move. *)
Definition line_cells (dir : Dir) (n : nat) (g : list (list Z)) (i : nat)
  : list Z :=
  (λ j, default 0%Z (cell g (coord dir n i j).1 (coord dir n i j).2))
    <$> seq 0 n.

(** ** Facts about the line primitives *)

Section line_facts.
Implicit Types (l line rest : list Z) (a b v g : Z).

Lemma filter_nonzero_replicate n :
  filter (λ v, v ≠ 0%Z) (replicate n 0%Z) = [].
Proof.
  induction n as [|n IH]; simpl; [done|].
  rewrite filter_cons_False; [done | intros H; by apply H].
Qed.

Lemma _compress_line_length line :
  length (_compress_line line) = length line.
Proof.
  unfold _compress_line; cbn zeta.
  rewrite length_app, length_replicate.
  pose proof (length_filter (λ v, v ≠ 0%Z) line). lia.
Qed.

Lemma _compress_line_filter line :
  filter (λ v, v ≠ 0%Z) (_compress_line line) = filter (λ v, v ≠ 0%Z) line.
Proof.
  unfold _compress_line; cbn zeta.
  rewrite filter_app, filter_nonzero_replicate, app_nil_r.
  apply list_filter_filter_l. done.
Qed.

End line_facts.

(** ** The loop of [_merge_line] as a scan of the list *)

Section merge_loop.
Implicit Types (l line rest pre : list Z) (a b v g : Z).

Lemma lookup_total_at pre a rest : (pre ++ a :: rest) !!! length pre = a.
Proof. by apply list_lookup_total_middle. Qed.

Lemma lookup_total_next pre a b rest :
  (pre ++ a :: b :: rest) !!! (length pre + 1) = b.
Proof.
  rewrite (cons_middle a pre), app_assoc.
  apply list_lookup_total_middle. rewrite length_app. simpl. lia.
Qed.

Lemma insert_at pre a rest v : <[length pre := v]> (pre ++ a :: rest) = pre ++ v :: rest.
Proof.
  rewrite insert_app_r_alt by lia. by rewrite Nat.sub_diag.
Qed.

Lemma insert_next pre a b rest v :
  <[length pre + 1 := v]> (pre ++ a :: b :: rest) = pre ++ a :: v :: rest.
Proof.
  rewrite insert_app_r_alt by lia.
  by replace (length pre + 1 - length pre) with 1 by lia.
Qed.

Lemma merge_loop_scan_from rest : ∀ pre a g,
  foldl merge_at (pre ++ a :: rest, g) (seq (length pre) (length rest))
  = (pre ++ (scan_from a rest).1, (g + (scan_from a rest).2)%Z).
Proof.
  induction rest as [|b rest IH]; intros pre a g; simpl.
  - by rewrite Z.add_0_r.
  - rewrite lookup_total_at, lookup_total_next.
    destruct (decide (a ≠ 0%Z ∧ a = b)) as [Hm|Hm].
    + rewrite insert_at, insert_next, lookup_total_at.
      specialize (IH (pre ++ [(a * 2)%Z]) 0%Z (g + a * 2)%Z).
      rewrite length_app, <- app_assoc in IH. simpl in IH.
      replace (length pre + 1) with (S (length pre)) in IH by lia.
      rewrite IH. destruct (scan_from 0 rest) as [l' g']. simpl.
      rewrite <- app_assoc. simpl. f_equal. lia.
    + specialize (IH (pre ++ [a]) b g).
      rewrite length_app, <- app_assoc in IH. simpl in IH.
      replace (length pre + 1) with (S (length pre)) in IH by lia.
      rewrite IH. destruct (scan_from b rest) as [l' g']. simpl.
      by rewrite <- app_assoc.
Qed.

Lemma merge_loop_scan l :
  foldl merge_at (l, 0%Z) (seq 0 (length l - 1)) = scan l.
Proof.
  destruct l as [|a rest]; [done|].
  pose proof (merge_loop_scan_from rest [] a 0%Z) as H. simpl in *.
  rewrite Nat.sub_0_r, H. by destruct (scan_from a rest).
Qed.

Lemma _merge_line_scan line :
  _merge_line line =
  (_compress_line (scan (_compress_line line)).1, (scan (_compress_line line)).2).
Proof.
  unfold _merge_line. cbn zeta. rewrite merge_loop_scan.
  by destruct (scan (_compress_line line)).
Qed.
End merge_loop.

Section scan_facts.
Implicit Types (l line rest pre : list Z) (a b v g : Z).

Lemma tiles_cons a l :
  tiles (a :: l) = (if decide (a ≠ 0%Z) then 1 else 0) + tiles l.
Proof.
  unfold tiles. destruct (decide (a ≠ 0%Z)).
  - by rewrite filter_cons_True.
  - by rewrite filter_cons_False.
Qed.

Lemma tiles_le_length l : tiles l ≤ length l.
Proof. apply length_filter. Qed.

Lemma line_sum_app l1 l2 : line_sum (l1 ++ l2) = (line_sum l1 + line_sum l2)%Z.
Proof. induction l1 as [|a l1 IH]; simpl; [done|]. rewrite IH. lia. Qed.

Lemma line_sum_replicate_0 n : line_sum (replicate n 0%Z) = 0%Z.
Proof. induction n as [|n IH]; simpl; [done|]. by rewrite IH. Qed.

Lemma line_sum_filter_nonzero l :
  line_sum (filter (λ v, v ≠ 0%Z) l) = line_sum l.
Proof.
  induction l as [|a l IH]; [done|].
  destruct (decide (a ≠ 0%Z)) as [Ha|Ha].
  - rewrite filter_cons_True by done. simpl. by rewrite IH.
  - rewrite filter_cons_False by done. simpl. rewrite IH.
    assert (a = 0%Z) by (destruct (decide (a = 0%Z)); [done | by destruct Ha]).
    lia.
Qed.

Lemma line_sum_reverse l : line_sum (reverse l) = line_sum l.
Proof.
  induction l as [|a l IH]; [done|].
  rewrite reverse_cons, line_sum_app, IH. simpl. lia.
Qed.

Lemma scan_from_length rest : ∀ a, length (scan_from a rest).1 = S (length rest).
Proof.
  induction rest as [|b rest IH]; intros a; simpl; [done|].
  destruct (decide (a ≠ 0%Z ∧ a = b)).
  - specialize (IH 0%Z). destruct (scan_from 0 rest). simpl in *. by rewrite IH.
  - specialize (IH b). destruct (scan_from b rest). simpl in *. by rewrite IH.
Qed.

Lemma scan_from_sum rest : ∀ a,
  line_sum (scan_from a rest).1 = (a + line_sum rest)%Z.
Proof.
  induction rest as [|b rest IH]; intros a; simpl; [done|].
  destruct (decide (a ≠ 0%Z ∧ a = b)) as [[_ <-]|_].
  - specialize (IH 0%Z). destruct (scan_from 0 rest). simpl in *. rewrite IH. lia.
  - specialize (IH b). destruct (scan_from b rest). simpl in *. by rewrite IH.
Qed.

(** Either the scan leaves the line alone and gains nothing, or it merges
    and the line loses a tile. *)
Lemma scan_from_tiles rest : ∀ a,
  scan_from a rest = (a :: rest, 0%Z) ∨
  tiles (scan_from a rest).1 < tiles (a :: rest).
Proof.
  induction rest as [|b rest IH]; intros a; simpl; [by left|].
  destruct (decide (a ≠ 0%Z ∧ a = b)) as [[Ha <-]|_].
  - right. specialize (IH 0%Z).
    assert (tiles (scan_from 0 rest).1 ≤ tiles (0%Z :: rest)) as Hle.
    { destruct IH as [-> | ?]; simpl; lia. }
    destruct (scan_from 0 rest) as [l' g']. simpl in *.
    rewrite !tiles_cons in *.
    repeat case_decide; try lia; try done.
  - specialize (IH b). destruct (scan_from b rest) as [l' g']. simpl in *.
    destruct IH as [IH|IH]; [left; congruence|right].
    rewrite (tiles_cons a), (tiles_cons a (b :: rest)). lia.
Qed.

Lemma scan_tiles l :
  scan l = (l, 0%Z) ∨ tiles (scan l).1 < tiles l.
Proof. destruct l as [|a rest]; [by left|]. apply scan_from_tiles. Qed.

Lemma scan_length l : length (scan l).1 = length l.
Proof. destruct l as [|a rest]; [done|]. apply scan_from_length. Qed.

Lemma scan_sum l : line_sum (scan l).1 = line_sum l.
Proof. destruct l as [|a rest]; [done|]. apply scan_from_sum. Qed.

Lemma scan_from_no_pair rest : ∀ a,
  has_pair (a :: rest) = false → scan_from a rest = (a :: rest, 0%Z).
Proof.
  induction rest as [|b rest IH]; intros a Hp; [done|].
  simpl in Hp. apply orb_false_iff in Hp as [Hab Hp].
  apply bool_decide_eq_false in Hab.
  simpl. rewrite decide_False by done. by rewrite (IH b Hp).
Qed.

Lemma scan_no_pair l : has_pair l = false → scan l = (l, 0%Z).
Proof. destruct l as [|a rest]; [done|]. apply scan_from_no_pair. Qed.

Lemma scan_from_Forall (P : Z → Prop) rest :
  P 0%Z → (∀ v, v ≠ 0%Z → P v → P (v * 2)%Z) →
  ∀ a, Forall P (a :: rest) → Forall P (scan_from a rest).1.
Proof.
  intros H0 H2. induction rest as [|b rest IH]; intros a Ha; simpl; [done|].
  apply Forall_cons in Ha as [Ha Hrest].
  destruct (decide (a ≠ 0%Z ∧ a = b)) as [[Hnz <-]|_].
  - specialize (IH 0%Z). destruct (scan_from 0 rest). simpl in *.
    apply Forall_cons in Hrest as [_ Hrest].
    constructor; [by apply H2 | apply IH; by constructor].
  - specialize (IH b Hrest). destruct (scan_from b rest). simpl in *.
    by constructor.
Qed.

Lemma scan_Forall (P : Z → Prop) l :
  P 0%Z → (∀ v, v ≠ 0%Z → P v → P (v * 2)%Z) →
  Forall P l → Forall P (scan l).1.
Proof.
  intros H0 H2 Hl. destruct l as [|a rest]; [done|]. by apply scan_from_Forall.
Qed.

End scan_facts.

(** ** Facts about [_compress_line] and [_merge_line] *)

Section merge_facts.
Implicit Types (l line rest pre : list Z) (a b v g : Z).

Lemma _compress_line_sum line : line_sum (_compress_line line) = line_sum line.
Proof.
  unfold _compress_line; cbn zeta.
  rewrite line_sum_app, line_sum_replicate_0, line_sum_filter_nonzero. lia.
Qed.

Lemma _compress_line_tiles line : tiles (_compress_line line) = tiles line.
Proof. unfold tiles. by rewrite _compress_line_filter. Qed.

Lemma _compress_line_Forall (P : Z → Prop) line :
  P 0%Z → Forall P line → Forall P (_compress_line line).
Proof.
  intros H0 Hl. unfold _compress_line; cbn zeta. apply Forall_app. split.
  - apply Forall_forall. intros x [_ Hx]%list_elem_of_filter.
    revert x Hx. by apply Forall_forall.
  - by apply Forall_replicate.
Qed.

(** A line without an empty cell is its own compression. *)
Lemma _compress_line_full line :
  tiles line = length line → _compress_line line = line.
Proof.
  intros Hfull.
  assert (Hall : Forall (λ v, v ≠ 0%Z) line).
  { revert Hfull. induction line as [|a l IH]; [done|].
    rewrite tiles_cons. pose proof (tiles_le_length l). simpl.
    case_decide; [|lia]. intros ?. constructor; [done|]. apply IH. lia. }
  unfold _compress_line; cbn zeta. fold (tiles line).
  rewrite Hfull, Nat.sub_diag, app_nil_r. clear Hfull.
  induction Hall as [|a l Ha Hl IH]; [done|].
  rewrite filter_cons_True by done. by rewrite IH.
Qed.

Lemma _compress_line_idemp line :
  _compress_line (_compress_line line) = _compress_line line.
Proof.
  unfold _compress_line at 1; cbn zeta.
  rewrite _compress_line_filter, _compress_line_length. done.
Qed.

Lemma _merge_line_length line : length (_merge_line line).1 = length line.
Proof.
  rewrite _merge_line_scan. simpl.
  by rewrite _compress_line_length, scan_length, _compress_line_length.
Qed.

Lemma _merge_line_sum line : line_sum (_merge_line line).1 = line_sum line.
Proof.
  rewrite _merge_line_scan. simpl.
  by rewrite _compress_line_sum, scan_sum, _compress_line_sum.
Qed.

(** A row that [_merge_line] returns as it was has gained nothing. *)
Lemma _merge_line_same_gain line :
  (_merge_line line).1 = line → (_merge_line line).2 = 0%Z.
Proof.
  rewrite _merge_line_scan. simpl. intros Hsame.
  destruct (scan_tiles (_compress_line line)) as [-> | Hlt]; [done|].
  apply (f_equal tiles) in Hsame.
  rewrite _compress_line_tiles in Hsame.
  rewrite _compress_line_tiles in Hlt. lia.
Qed.

(** A row that [_merge_line] changes ends with an empty cell. *)
Lemma _merge_line_changed_tiles line :
  (_merge_line line).1 ≠ line → tiles (_merge_line line).1 < length line.
Proof.
  rewrite _merge_line_scan. simpl. intros Hdiff.
  pose proof (tiles_le_length line) as Hle.
  rewrite _compress_line_tiles.
  destruct (scan_tiles (_compress_line line)) as [Hid | Hlt].
  - rewrite Hid in *. simpl in *. rewrite _compress_line_idemp in Hdiff.
    rewrite _compress_line_tiles.
    destruct (decide (tiles line = length line)) as [Hfull|]; [|lia].
    by apply _compress_line_full in Hfull.
  - rewrite _compress_line_tiles in Hlt. lia.
Qed.

Lemma tiles_lt_length_zero l : tiles l < length l → ∃ c, l !! c = Some 0%Z.
Proof.
  induction l as [|a l IH]; simpl; [lia|].
  rewrite tiles_cons. case_decide as Ha.
  - intros Hlt. destruct IH as [c Hc]; [lia|]. by exists (S c).
  - intros _. exists 0. simpl. f_equal.
    destruct (decide (a = 0%Z)); [done | by destruct Ha].
Qed.

Lemma _merge_line_Forall (P : Z → Prop) line :
  P 0%Z → (∀ v, v ≠ 0%Z → P v → P (v * 2)%Z) →
  Forall P line → Forall P (_merge_line line).1.
Proof.
  intros H0 H2 Hl. rewrite _merge_line_scan. simpl.
  apply _compress_line_Forall; [done|].
  apply scan_Forall; [done..|]. by apply _compress_line_Forall.
Qed.

(** Once the merged row has no two equal neighbouring tiles, merging it
    again changes nothing. *)
Lemma _merge_line_stable line :
  has_pair (_merge_line line).1 = false →
  (_merge_line (_merge_line line).1).1 = (_merge_line line).1.
Proof.
  intros Hp.
  rewrite (_merge_line_scan (_merge_line line).1). simpl.
  assert (_compress_line (_merge_line line).1 = (_merge_line line).1) as ->.
  { rewrite _merge_line_scan. simpl. apply _compress_line_idemp. }
  rewrite (scan_no_pair _ Hp). simpl.
  rewrite _merge_line_scan. simpl. apply _compress_line_idemp.
Qed.

End merge_facts.

(** ** The loop of [move_left] *)

Section loop_facts.
Implicit Types (g pre post : list (list Z)) (row : list Z) (s : Game).

Lemma merge_grid_length g : length (merge_grid g) = length g.
Proof. apply length_fmap. Qed.

(** One iteration of the loop of [move_left]: the row is replaced by its
    merged line, which is the row itself when the test fails. *)
Lemma move_row_at pre row post moved total :
  move_row (pre ++ row :: post, moved, total) (length pre)
  = Some (pre ++ (_merge_line row).1 :: post,
          moved || bool_decide ((_merge_line row).1 ≠ row),
          (total + (_merge_line row).2)%Z).
Proof.
  unfold move_row. rewrite list_lookup_middle by done. simpl.
  pose proof (_merge_line_same_gain row) as Hgain.
  destruct (_merge_line row) as [new_line gained]. simpl in *.
  destruct (decide (new_line ≠ row)) as [Hd|Hd].
  - rewrite insert_app_r_alt, Nat.sub_diag by lia. simpl.
    by rewrite bool_decide_eq_true_2, orb_true_r by done.
  - assert (new_line = row) as -> by (by destruct (decide (new_line = row))).
    rewrite Hgain, bool_decide_eq_false_2, orb_false_r, Z.add_0_r by done.
    done.
Qed.

Lemma move_row_loop post : ∀ pre moved total,
  for_each move_row (pre ++ post, moved, total)
           (seq (length pre) (length post))
  = Some (pre ++ merge_grid post, moved || some_row_changes post,
          (total + gained_sum post)%Z).
Proof.
  induction post as [|row post IH]; intros pre moved total.
  - simpl. by rewrite orb_false_r, Z.add_0_r.
  - cbn [length seq for_each]. rewrite move_row_at. simpl.
    specialize (IH (pre ++ [(_merge_line row).1])).
    rewrite length_app, <- app_assoc in IH. simpl in IH.
    replace (length pre + 1) with (S (length pre)) in IH by lia.
    rewrite IH. unfold gained_sum. simpl.
    rewrite orb_assoc, <- app_assoc, Z.add_assoc. done.
Qed.

Lemma merge_rows_spec s :
  length (grid s) = size s →
  merge_rows s
  = Some (merge_grid (grid s), some_row_changes (grid s), gained_sum (grid s)).
Proof.
  intros Hlen. unfold merge_rows. rewrite <- Hlen.
  pose proof (move_row_loop (grid s) [] false 0%Z) as H. simpl in H.
  rewrite H. by destruct (gained_sum (grid s)).
Qed.

End loop_facts.

(** ** Cells of a square grid *)

Section grid_facts.
Implicit Types (g : list (list Z)) (row col : list Z) (n m r c : nat) (v : Z).

Lemma cell_Some g r c v :
  cell g r c = Some v ↔ ∃ row, g !! r = Some row ∧ row !! c = Some v.
Proof.
  unfold cell. destruct (g !! r) as [row|]; simpl; split.
  - intros Hc. by exists row.
  - by intros (? & [= <-] & Hc).
  - done.
  - by intros (? & ? & _).
Qed.

Lemma cell_lt n g r c v :
  square n g → cell g r c = Some v → r < n ∧ c < n.
Proof.
  intros [Hlen Hrows] (row & Hr & Hc)%cell_Some.
  pose proof (lookup_lt_Some _ _ _ Hr).
  pose proof (lookup_lt_Some _ _ _ Hc).
  rewrite Forall_lookup in Hrows. specialize (Hrows _ _ Hr). simpl in Hrows.
  lia.
Qed.

Lemma cell_is_Some n g r c :
  square n g → r < n → c < n → is_Some (cell g r c).
Proof.
  intros [Hlen Hrows] Hr Hc.
  destruct (lookup_lt_is_Some_2 g r) as [row Hrow]; [lia|].
  rewrite Forall_lookup in Hrows. specialize (Hrows _ _ Hrow). simpl in Hrows.
  destruct (lookup_lt_is_Some_2 row c) as [v Hv]; [lia|].
  exists v. apply cell_Some. eauto.
Qed.

(** Two square grids of the same side with the same cells are equal. *)
Lemma square_ext n g1 g2 :
  square n g1 → square n g2 →
  (∀ r c, r < n → c < n → cell g1 r c = cell g2 r c) → g1 = g2.
Proof.
  intros [Hl1 Hr1] [Hl2 Hr2] Hcells. apply list_eq. intros r.
  destruct (decide (r < n)) as [Hr|Hr].
  - destruct (lookup_lt_is_Some_2 g1 r) as [row1 Hrow1]; [lia|].
    destruct (lookup_lt_is_Some_2 g2 r) as [row2 Hrow2]; [lia|].
    rewrite Hrow1, Hrow2. f_equal.
    rewrite Forall_lookup in Hr1. specialize (Hr1 _ _ Hrow1). simpl in Hr1.
    rewrite Forall_lookup in Hr2. specialize (Hr2 _ _ Hrow2). simpl in Hr2.
    apply list_eq. intros c.
    destruct (decide (c < n)) as [Hc|Hc].
    + specialize (Hcells r c Hr Hc). unfold cell in Hcells.
      by rewrite Hrow1, Hrow2 in Hcells.
    + by rewrite !lookup_ge_None_2 by lia.
  - by rewrite !lookup_ge_None_2 by lia.
Qed.

Lemma square_set_cell n g r c v : square n g → square n (set_cell r c v g).
Proof.
  intros [Hlen Hrows]. split; unfold set_cell.
  - by rewrite length_alter.
  - apply Forall_lookup. intros i row.
    rewrite Forall_lookup in Hrows.
    rewrite list_lookup_alter. case_decide as Hi.
    + subst i. destruct (g !! r) as [row'|] eqn:Hrow'; simpl; [|done].
      intros [= <-]. rewrite length_insert. eauto.
    + apply Hrows.
Qed.

Lemma cell_set_cell g r c v r' c' :
  cell (set_cell r c v g) r' c'
  = if decide (r' = r ∧ c' = c) then (λ _, v) <$> cell g r c else cell g r' c'.
Proof.
  unfold cell, set_cell. rewrite list_lookup_alter.
  destruct (decide (r = r')) as [<-|Hr].
  - destruct (g !! r) as [row|]; simpl.
    + rewrite list_lookup_insert.
      destruct (decide (c' = c)) as [->|Hc].
      * rewrite (decide_True (P := r = r ∧ c = c)) by done.
        destruct (decide (c < length row)) as [Hlt|Hge].
        -- rewrite decide_True by done.
           destruct (lookup_lt_is_Some_2 row c Hlt) as [x ->]. done.
        -- rewrite decide_False by tauto.
           by rewrite !lookup_ge_None_2 by lia.
      * rewrite decide_False by lia.
        rewrite (decide_False (P := r = r ∧ c' = c)) by lia. done.
    + by case_decide.
  - rewrite decide_False by lia. done.
Qed.

(** *** Reversed rows *)

Lemma reverse_rows_involutive g : reverse <$> (reverse <$> g) = g.
Proof.
  rewrite <- list_fmap_compose. rewrite <- (list_fmap_id g) at 2.
  apply list_fmap_ext. intros _ row _. simpl. apply reverse_involutive.
Qed.

Lemma square_reverse n g : square n g → square n (reverse <$> g).
Proof.
  intros [Hlen Hrows]. split; [by rewrite length_fmap|].
  apply Forall_fmap. eapply Forall_impl; [done|].
  intros row Hrow. simpl. by rewrite length_reverse.
Qed.

Lemma cell_reverse n g r c :
  square n g → c < n → cell (reverse <$> g) r c = cell g r (n - S c).
Proof.
  intros [Hlen Hrows] Hc. unfold cell. rewrite list_lookup_fmap.
  destruct (g !! r) as [row|] eqn:Hrow; simpl; [|done].
  rewrite Forall_lookup in Hrows. specialize (Hrows _ _ Hrow). simpl in Hrows.
  rewrite reverse_lookup by lia. by rewrite Hrows.
Qed.

End grid_facts.

(** ** Transposition, and sums of cells *)

Section transpose_facts.
Implicit Types (g : list (list Z)) (row col : list Z) (n m r c : nat) (v : Z).

Lemma zip_star_shape m g :
  g ≠ [] → Forall (λ row, length row = m) g →
  length (zip_star g) = m ∧ Forall (λ col, length col = length g) (zip_star g).
Proof.
  induction g as [|row g IH]; [done|]. intros _ Hrows.
  apply Forall_cons in Hrows as [Hrow Hrows].
  destruct g as [|row2 g].
  - simpl. split; [by rewrite length_fmap|].
    apply Forall_fmap, Forall_forall. done.
  - destruct IH as [IHlen IHcols]; [done..|].
    change (zip_star (row :: row2 :: g))
      with (zip_with cons row (zip_star (row2 :: g))).
    split.
    + rewrite length_zip_with. lia.
    + apply Forall_lookup. intros i col Hcol.
      apply lookup_zip_with_Some in Hcol as (x & col' & -> & _ & Hcol').
      rewrite Forall_lookup in IHcols. specialize (IHcols _ _ Hcol').
      simpl in *. by rewrite IHcols.
Qed.

(** The cell at row [c] and column [r] of the transposed grid is the cell
    at row [r] and column [c] of the grid, when the rows have one length. *)
Lemma cell_zip_star m g r c :
  Forall (λ row, length row = m) g → cell (zip_star g) c r = cell g r c.
Proof.
  revert r. induction g as [|row g IH]; intros r Hrows; [done|].
  apply Forall_cons in Hrows as [Hrow Hrows].
  destruct g as [|row2 g].
  - unfold cell. simpl. rewrite list_lookup_fmap.
    destruct r as [|r]; simpl.
    + by destruct (row !! c).
    + by destruct (row !! c).
  - change (zip_star (row :: row2 :: g))
      with (zip_with cons row (zip_star (row2 :: g))).
    destruct (zip_star_shape m (row2 :: g)) as [Hlen _]; [done..|].
    unfold cell at 1. rewrite lookup_zip_with.
    destruct (decide (c < m)) as [Hc|Hc].
    + destruct (lookup_lt_is_Some_2 row c) as [x Hx]; [lia|].
      destruct (lookup_lt_is_Some_2 (zip_star (row2 :: g)) c) as [col Hcol];
        [lia|].
      rewrite Hx, Hcol. simpl. destruct r as [|r]; simpl.
      * unfold cell. simpl. done.
      * specialize (IH r Hrows). unfold cell at 1 in IH.
        rewrite Hcol in IH. simpl in IH. rewrite IH. done.
    + rewrite (lookup_ge_None_2 row) by lia. simpl.
      destruct r as [|r].
      * unfold cell. simpl. by rewrite lookup_ge_None_2 by lia.
      * specialize (IH r Hrows). unfold cell at 1 in IH.
        rewrite (lookup_ge_None_2 (zip_star _)) in IH by lia. simpl in IH.
        rewrite IH. done.
Qed.

Lemma square_zip_star n g : square n g → square n (zip_star g).
Proof.
  intros [Hlen Hrows]. destruct g as [|row g].
  - simpl in *. subst n. by split.
  - destruct (zip_star_shape n (row :: g)) as [Hl Hc]; [done..|].
    split; [done|]. by rewrite Hlen in Hc.
Qed.

Lemma zip_star_involutive n g : square n g → zip_star (zip_star g) = g.
Proof.
  intros Hsq. apply (square_ext n); [by do 2 apply square_zip_star|done|].
  intros r c _ _.
  rewrite (cell_zip_star n) by apply (square_zip_star n g Hsq).
  rewrite (cell_zip_star n) by apply Hsq. done.
Qed.

Lemma zip_star_set_cell n g r c v :
  square n g → zip_star (set_cell r c v g) = set_cell c r v (zip_star g).
Proof.
  intros Hsq. apply (square_ext n).
  - by apply square_zip_star, square_set_cell.
  - by apply square_set_cell, square_zip_star.
  - intros r' c' _ _.
    rewrite (cell_zip_star n) by by apply square_set_cell.
    rewrite !cell_set_cell, !(cell_zip_star n) by apply Hsq.
    destruct (decide (c' = r ∧ r' = c)), (decide (r' = c ∧ c' = r));
      done || lia.
Qed.

Lemma reverse_rows_set_cell n g r c v :
  square n g → c < n →
  reverse <$> set_cell r c v g = set_cell r (n - S c) v (reverse <$> g).
Proof.
  intros Hsq Hc. apply (square_ext n).
  - by apply square_reverse, square_set_cell.
  - by apply square_set_cell, square_reverse.
  - intros r' c' _ Hc'.
    rewrite (cell_reverse n) by (by try apply square_set_cell).
    rewrite !cell_set_cell, !(cell_reverse n) by (done || lia).
    replace (n - S (n - S c)) with c by lia.
    destruct (decide (r' = r ∧ n - S c' = c)), (decide (r' = r ∧ c' = n - S c));
      done || lia.
Qed.

Lemma grid_sum_cons row g : grid_sum (row :: g) = (line_sum row + grid_sum g)%Z.
Proof. done. Qed.

Lemma grid_sum_zip_with_cons row : ∀ g,
  length g = length row →
  grid_sum (zip_with cons row g) = (line_sum row + grid_sum g)%Z.
Proof.
  induction row as [|x row IH]; intros [|col g] Hlen; simplify_eq/=; [done|].
  rewrite !grid_sum_cons, IH by done. simpl. lia.
Qed.

Lemma grid_sum_singletons row : grid_sum ((λ x, [x]) <$> row) = line_sum row.
Proof.
  induction row as [|x row IH]; [done|].
  rewrite fmap_cons, grid_sum_cons, IH. simpl. lia.
Qed.

Lemma grid_sum_zip_star m g :
  Forall (λ row, length row = m) g → grid_sum (zip_star g) = grid_sum g.
Proof.
  induction g as [|row g IH]; intros Hrows; [done|].
  apply Forall_cons in Hrows as [Hrow Hrows].
  destruct g as [|row2 g].
  - simpl. rewrite grid_sum_singletons, grid_sum_cons.
    unfold grid_sum. simpl. lia.
  - change (zip_star (row :: row2 :: g))
      with (zip_with cons row (zip_star (row2 :: g))).
    destruct (zip_star_shape m (row2 :: g)) as [Hlen _]; [done..|].
    rewrite grid_sum_zip_with_cons by lia.
    rewrite IH by done. done.
Qed.

Lemma grid_sum_reverse g : grid_sum (reverse <$> g) = grid_sum g.
Proof.
  induction g as [|row g IH]; [done|].
  rewrite fmap_cons, !grid_sum_cons, IH, line_sum_reverse. done.
Qed.

Lemma grid_sum_merge_grid g : grid_sum (merge_grid g) = grid_sum g.
Proof.
  induction g as [|row g IH]; [done|].
  unfold merge_grid in *. rewrite fmap_cons, !grid_sum_cons, IH.
  by rewrite _merge_line_sum.
Qed.

Lemma square_merge_grid n g : square n g → square n (merge_grid g).
Proof.
  intros [Hlen Hrows]. split; [by rewrite merge_grid_length|].
  apply Forall_fmap. eapply Forall_impl; [done|].
  intros row Hrow. simpl. by rewrite _merge_line_length.
Qed.

End transpose_facts.

(** ** [spawn_random] *)

Section spawn_facts.
Implicit Types (g : list (list Z)) (s : Game) (d : Draw) (n m r c : nat).

Lemma elem_of_range2 n m r c : (r, c) ∈ range2 n m ↔ r < n ∧ c < m.
Proof.
  unfold range2. rewrite list_elem_of_bind. split.
  - intros (r' & Hc & Hr). apply list_elem_of_bind in Hc as (c' & Hrc & Hc).
    apply list_elem_of_singleton in Hrc as [= -> ->].
    apply elem_of_seq in Hr, Hc. lia.
  - intros [Hr Hc]. exists r. split; [|apply elem_of_seq; lia].
    apply list_elem_of_bind. exists c.
    split; [by apply list_elem_of_singleton | apply elem_of_seq; lia].
Qed.

Lemma mapM_total {A B} (f : A → option B) (h : A → B) (l : list A) :
  (∀ x, x ∈ l → f x = Some (h x)) → mapM f l = Some (h <$> l).
Proof.
  intros Hf. apply mapM_Some_2.
  induction l as [|x l IH]; simpl; constructor.
  - apply Hf. left.
  - apply IH. intros y Hy. apply Hf. by right.
Qed.

(** On a well-formed session the comprehension of [spawn_random] raises
    nothing and collects exactly the coordinates of the empty cells. *)
Lemma empty_cells_spec s :
  well_formed s →
  ∃ empty, empty_cells s = Some empty ∧
           ∀ r c, (r, c) ∈ empty ↔ cell (grid s) r c = Some 0%Z.
Proof.
  intros Hwf. unfold empty_cells.
  set (h := λ rc : nat * nat, (rc, default 0%Z (cell (grid s) rc.1 rc.2))).
  rewrite (mapM_total _ h).
  2:{ intros [r c] [Hr Hc]%elem_of_range2. simpl.
      destruct (cell_is_Some _ _ r c Hwf Hr Hc) as [v Hv]. unfold h. simpl. by rewrite Hv. }
  simpl. eexists; split; [done|]. intros r c.
  rewrite list_elem_of_fmap. split.
  - intros ([[r' c'] v] & [= <- <-] & [Hv Hin]%list_elem_of_filter).
    simpl in Hv. subst v.
    apply list_elem_of_fmap in Hin as ([r'' c''] & [= -> -> Hv] & Hin).
    apply elem_of_range2 in Hin as [Hr Hc].
    destruct (cell_is_Some _ _ r'' c'' Hwf Hr Hc) as [v Hcell].
    rewrite Hcell in Hv |- *. simpl in Hv. by subst v.
  - intros Hcell. exists ((r, c), 0%Z). split; [done|].
    apply list_elem_of_filter. split; [done|].
    apply list_elem_of_fmap. exists (r, c). split.
    + unfold h. simpl. by rewrite Hcell.
    + apply elem_of_range2. by eapply cell_lt.
Qed.

Lemma spawn_random_placed d s r0 c0 :
  well_formed s → cell (grid s) r0 c0 = Some 0%Z →
  ∃ r c, cell (grid s) r c = Some 0%Z ∧
         spawn_random d s
         = Some (with_grid (set_cell r c (new_tile d) (grid s)) s).
Proof.
  intros Hwf H0. unfold spawn_random.
  destruct (empty_cells_spec s Hwf) as (empty & -> & Hempty). simpl.
  destruct (decide (empty = [])) as [->|Hne].
  - apply Hempty in H0. by apply elem_of_nil in H0.
  - assert (choice d mod length empty < length empty) as Hlt.
    { apply Nat.mod_upper_bound. by destruct empty. }
    pose proof (list_elem_of_lookup_total_2 empty _ Hlt) as Hin.
    destruct (empty !!! (choice d mod length empty)) as [r c].
    exists r, c. split; [by apply Hempty | done].
Qed.

Lemma spawn_random_full d s :
  well_formed s → (∀ r c, cell (grid s) r c ≠ Some 0%Z) →
  spawn_random d s = Some s.
Proof.
  intros Hwf Hfull. unfold spawn_random.
  destruct (empty_cells_spec s Hwf) as (empty & -> & Hempty). simpl.
  destruct empty as [|[r c] empty]; [done|].
  destruct (Hfull r c). apply Hempty. left.
Qed.

End spawn_facts.

(** ** The four moves *)

Section move_facts.
Implicit Types (g : list (list Z)) (s : Game) (d : Draw) (n m r c : nat).

Lemma placed_square n v g g' : placed n v g g' → square n g'.
Proof. intros (Hsq & r & c & _ & ->). by apply square_set_cell. Qed.

Lemma placed_reverse n v g g' :
  placed n v g g' → placed n v (reverse <$> g) (reverse <$> g').
Proof.
  intros (Hsq & r & c & Hcell & ->).
  destruct (cell_lt _ _ _ _ _ Hsq Hcell) as [Hr Hc].
  split; [by apply square_reverse|]. exists r, (n - S c). split.
  - rewrite (cell_reverse n) by (done || lia).
    by replace (n - S (n - S c)) with c by lia.
  - by apply reverse_rows_set_cell.
Qed.

Lemma placed_zip_star n v g g' :
  placed n v g g' → placed n v (zip_star g) (zip_star g').
Proof.
  intros (Hsq & r & c & Hcell & ->).
  split; [by apply square_zip_star|]. exists c, r. split.
  - rewrite (cell_zip_star n) by apply Hsq. done.
  - by apply (zip_star_set_cell n).
Qed.

Lemma some_row_changes_false g : some_row_changes g = false → merge_grid g = g.
Proof.
  induction g as [|row g IH]; [done|]. simpl.
  intros [Hrow Hg]%orb_false_iff. apply bool_decide_eq_false in Hrow.
  change (merge_grid (row :: g)) with ((_merge_line row).1 :: merge_grid g).
  rewrite IH by done. f_equal.
  by destruct (decide ((_merge_line row).1 = row)).
Qed.

Lemma some_row_changes_Exists g :
  some_row_changes g = true ↔ Exists (λ row, (_merge_line row).1 ≠ row) g.
Proof.
  induction g as [|row g IH]; simpl.
  - split; [done | by intros ?%Exists_nil].
  - rewrite orb_true_iff, bool_decide_eq_true, Exists_cons, IH. done.
Qed.

(** A grid in which [move_left] changes a row has an empty cell after the
    merge, inside the square that [spawn_random] searches. *)
Lemma some_row_changes_empty_cell n g :
  square n g → some_row_changes g = true →
  ∃ r c, cell (merge_grid g) r c = Some 0%Z.
Proof.
  intros _ (row & Hin & Hrow)%some_row_changes_Exists%Exists_exists.
  apply list_elem_of_lookup in Hin as [r Hr].
  apply _merge_line_changed_tiles in Hrow.
  rewrite <- _merge_line_length in Hrow.
  apply tiles_lt_length_zero in Hrow as [c Hc].
  exists r, c. apply cell_Some. exists (_merge_line row).1. split; [|done].
  unfold merge_grid. by rewrite list_lookup_fmap, Hr.
Qed.

Lemma move_left_spec : move_spec move_left id id.
Proof.
  intros d s Hwf. unfold move_left. simpl.
  rewrite merge_rows_spec by apply Hwf. simpl.
  destruct (some_row_changes (grid s)) eqn:Hch.
  - destruct (some_row_changes_empty_cell _ _ Hwf Hch) as (r0 & c0 & H0).
    pose proof (square_merge_grid _ _ Hwf) as Hsq.
    set (s1 := mkGame (size s) (merge_grid (grid s))
                      (score s + gained_sum (grid s))).
    destruct (spawn_random_placed d s1 r0 c0) as (r & c & Hcell & ->);
      [done..|].
    simpl. eexists; split; [done|]. simpl. split; [done|].
    split; [by apply square_set_cell|]. split; [done|].
    split; [done|]. by exists r, c.
  - rewrite (some_row_changes_false _ Hch).
    exists s. by destruct s.
Qed.

Lemma conjugate_spec f mv tl fl :
  (∀ n g, square n g → square n (f g)) →
  (∀ n g, square n g → f (f g) = g) →
  (∀ n v g g', placed n v g g' → placed n v (f g) (f g')) →
  move_spec mv tl fl →
  move_spec (conjugate f mv) (tl ∘ f) (f ∘ fl).
Proof.
  intros Hsq Hinv Hplaced Hmv d s Hwf. unfold conjugate. simpl.
  destruct (Hmv d (with_grid (f (grid s)) s)) as (s1 & -> & Hsize & Hwf1 & H).
  { by apply Hsq. }
  simpl in *. eexists; split; [done|]. simpl. split; [done|].
  split; [by apply Hsq|].
  destruct (some_row_changes (tl (f (grid s)))).
  - destruct H as [-> Hpl]. split; [done|]. by apply Hplaced.
  - subst s1. unfold with_grid. simpl. rewrite (Hinv _ _ Hwf). by destruct s.
Qed.

Lemma move_right_spec :
  move_spec move_right (fmap reverse) (fmap reverse).
Proof.
  assert (move_spec (conjugate (fmap reverse) move_left)
                    (id ∘ fmap reverse) (fmap reverse ∘ id)) as H.
  { apply conjugate_spec; [..|apply move_left_spec].
    - apply square_reverse.
    - intros. apply reverse_rows_involutive.
    - apply placed_reverse. }
  exact H.
Qed.

Lemma move_up_spec : move_spec move_up zip_star zip_star.
Proof.
  assert (move_spec (conjugate zip_star move_left)
                    (id ∘ zip_star) (zip_star ∘ id)) as H.
  { apply conjugate_spec; [..|apply move_left_spec].
    - apply square_zip_star.
    - apply zip_star_involutive.
    - apply placed_zip_star. }
  exact H.
Qed.

Lemma move_down_spec :
  move_spec move_down (fmap reverse ∘ zip_star) (zip_star ∘ fmap reverse).
Proof.
  assert (move_spec (conjugate zip_star move_right)
                    (fmap reverse ∘ zip_star) (zip_star ∘ fmap reverse)) as H.
  { apply conjugate_spec; [..|apply move_right_spec].
    - apply square_zip_star.
    - apply zip_star_involutive.
    - apply placed_zip_star. }
  exact H.
Qed.

Lemma move_dir_spec dir : move_spec (move dir) (to_left dir) (from_left dir).
Proof.
  destruct dir.
  - apply move_left_spec.
  - apply move_right_spec.
  - apply move_up_spec.
  - apply move_down_spec.
Qed.

End move_facts.

(** ** [can_move] *)

Section can_move_facts.
Implicit Types (g : list (list Z)) (s : Game) (n m r c : nat).

Lemma any_of_spec {A} (test : A → option bool) (P : A → Prop) (l : list A) :
  (∀ x, x ∈ l → ∃ b, test x = Some b ∧ (b = true ↔ P x)) →
  ∃ b, any_of test l = Some b ∧ (b = true ↔ ∃ x, x ∈ l ∧ P x).
Proof.
  induction l as [|x l IH]; intros Htest; simpl.
  - exists false. split; [done|]. split; [done|].
    by intros (x & ?%elem_of_nil & _).
  - destruct (Htest x) as (b & -> & Hb); [left|]. simpl.
    destruct b.
    + exists true. split; [done|]. split; [|done]. intros _.
      exists x. split; [left | by apply Hb].
    + destruct IH as (b & -> & Hb').
      { intros y Hy. apply Htest. by right. }
      exists b. split; [done|]. rewrite Hb'. split.
      * intros (y & Hy & HP). exists y. split; [by right | done].
      * intros (y & [->|Hy]%elem_of_cons & HP).
        -- apply Hb in HP. done.
        -- by exists y.
Qed.

Lemma can_move_spec s :
  well_formed s →
  ∃ b, can_move s = Some b ∧
       (b = true ↔
        has_empty (grid s) ∨ has_row_pair (grid s) ∨ has_column_pair (grid s)).
Proof.
  intros Hwf. unfold can_move. cbn zeta.
  set (g := grid s). set (n := size s).
  edestruct (any_of_spec
    (λ '(r, c), v ← cell g r c; Some (bool_decide (v = 0%Z)))
    (λ rc, cell g rc.1 rc.2 = Some 0%Z) (range2 n n)) as (b1 & -> & Hb1).
  { intros [r c] [Hr Hc]%elem_of_range2. simpl.
    destruct (cell_is_Some n g r c Hwf Hr Hc) as [v ->]. simpl.
    eexists; split; [done|]. rewrite bool_decide_eq_true.
    split; [by intros -> | by intros [= ->]]. }
  edestruct (any_of_spec
    (λ '(r, c), v ← cell g r c; w ← cell g r (c + 1);
                Some (bool_decide (v = w)))
    (λ rc, ∃ v, cell g rc.1 rc.2 = Some v ∧ cell g rc.1 (rc.2 + 1) = Some v)
    (range2 n (n - 1))) as (b2 & -> & Hb2).
  { intros [r c] [Hr Hc]%elem_of_range2. simpl.
    destruct (cell_is_Some n g r c Hwf) as [v ->]; [lia..|].
    destruct (cell_is_Some n g r (c + 1) Hwf) as [w ->]; [lia..|]. simpl.
    eexists; split; [done|]. rewrite bool_decide_eq_true.
    split; [intros ->; by exists w | by intros (? & [= <-] & [= <-])]. }
  edestruct (any_of_spec
    (λ '(c, r), v ← cell g r c; w ← cell g (r + 1) c;
                Some (bool_decide (v = w)))
    (λ cr, ∃ v, cell g cr.2 cr.1 = Some v ∧ cell g (cr.2 + 1) cr.1 = Some v)
    (range2 n (n - 1))) as (b3 & -> & Hb3).
  { intros [c r] [Hc Hr]%elem_of_range2. simpl.
    destruct (cell_is_Some n g r c Hwf) as [v ->]; [lia..|].
    destruct (cell_is_Some n g (r + 1) c Hwf) as [w ->]; [lia..|]. simpl.
    eexists; split; [done|]. rewrite bool_decide_eq_true.
    split; [intros ->; by exists w | by intros (? & [= <-] & [= <-])]. }
  simpl.
  assert (b1 = true ↔ has_empty g) as H1.
  { rewrite Hb1. split.
    - intros ([r c] & _ & H). by exists r, c.
    - intros (r & c & H). exists (r, c). split; [|done].
      apply elem_of_range2. by eapply cell_lt. }
  assert (b2 = true ↔ has_row_pair g) as H2.
  { rewrite Hb2. split.
    - intros ([r c] & _ & v & H). by exists r, c, v.
    - intros (r & c & v & Hv & Hw). exists (r, c). split; [|by exists v].
      apply elem_of_range2.
      apply (cell_lt n) in Hv, Hw; [|done..]. lia. }
  assert (b3 = true ↔ has_column_pair g) as H3.
  { rewrite Hb3. split.
    - intros ([c r] & _ & v & H). by exists r, c, v.
    - intros (r & c & v & Hv & Hw). exists (c, r). split; [|by exists v].
      apply elem_of_range2.
      apply (cell_lt n) in Hv, Hw; [|done..]. lia. }
  clear Hb1 Hb2 Hb3.
  destruct b1; [exists true; split; [done|]; tauto|].
  destruct b2; simpl; [exists true; split; [done|]; tauto|].
  exists b3. split; [done|].
  destruct H1 as [_ H1], H2 as [_ H2]. split; [tauto|].
  intros [He|[Hr|Hc]]; [by apply H1 in He | by apply H2 in Hr | by apply H3].
Qed.

End can_move_facts.

(** ** Tiles, directions and the cleared grid *)

Section invariant_facts.
Implicit Types (g : list (list Z)) (s : Game) (d : Draw) (n m r c : nat) (v : Z).

Lemma is_tile_0 : is_tile 0.
Proof. by left. Qed.

Lemma is_tile_double v : v ≠ 0%Z → is_tile v → is_tile (v * 2).
Proof.
  intros Hv [->|[k ->]]; [done|]. right. exists (S k).
  rewrite (Nat2Z.inj_succ (S k)), Z.pow_succ_r by lia. lia.
Qed.

Lemma is_tile_new d : is_tile (new_tile d).
Proof.
  right. exists (if lt_one_tenth d then 1 else 0).
  unfold new_tile. by destruct (lt_one_tenth d).
Qed.

Lemma tiles_ok_cells g :
  tiles_ok g ↔ ∀ r c v, cell g r c = Some v → is_tile v.
Proof.
  unfold tiles_ok. rewrite Forall_lookup. split.
  - intros Hg r c v (row & Hr & Hc)%cell_Some.
    specialize (Hg _ _ Hr). rewrite Forall_lookup in Hg. eauto.
  - intros Hg r row Hr. apply Forall_lookup. intros c v Hc.
    apply (Hg r c). apply cell_Some. eauto.
Qed.

Lemma tiles_ok_merge_grid g : tiles_ok g → tiles_ok (merge_grid g).
Proof.
  intros Hg. apply Forall_fmap. eapply Forall_impl; [done|].
  intros row Hrow. simpl.
  apply _merge_line_Forall; [apply is_tile_0 | apply is_tile_double | done].
Qed.

Lemma tiles_ok_reverse g : tiles_ok g → tiles_ok (reverse <$> g).
Proof.
  intros Hg. apply Forall_fmap. eapply Forall_impl; [done|].
  intros row Hrow. simpl. by apply Forall_reverse.
Qed.

Lemma tiles_ok_zip_star n g : square n g → tiles_ok g → tiles_ok (zip_star g).
Proof.
  intros Hsq Hg. apply tiles_ok_cells. intros r c v.
  rewrite (cell_zip_star n) by apply Hsq. revert c r v. by apply tiles_ok_cells.
Qed.

Lemma tiles_ok_set_cell g r c v :
  is_tile v → tiles_ok g → tiles_ok (set_cell r c v g).
Proof.
  intros Hv Hg. apply tiles_ok_cells. intros r' c' v'.
  rewrite cell_set_cell. case_decide as Hrc; clear Hrc.
  - destruct (cell g r c); simpl; [by intros [= <-] | done].
  - revert r' c' v'. by apply tiles_ok_cells.
Qed.

Lemma tiles_ok_placed n v g g' :
  is_tile v → placed n v g g' → tiles_ok g → tiles_ok g'.
Proof. intros Hv (_ & r & c & _ & ->) Hg. by apply tiles_ok_set_cell. Qed.

Lemma tiles_ok_from_left dir n g :
  square n g → tiles_ok g → tiles_ok (from_left dir g).
Proof.
  intros Hsq Hg. destruct dir; simpl.
  - done.
  - by apply tiles_ok_reverse.
  - by apply (tiles_ok_zip_star n).
  - apply (tiles_ok_zip_star n); [by apply square_reverse|].
    by apply tiles_ok_reverse.
Qed.

Lemma tiles_ok_to_left dir n g :
  square n g → tiles_ok g → tiles_ok (to_left dir g).
Proof.
  intros Hsq Hg. destruct dir; simpl.
  - done.
  - by apply tiles_ok_reverse.
  - by apply (tiles_ok_zip_star n).
  - by apply tiles_ok_reverse, (tiles_ok_zip_star n).
Qed.

Lemma square_to_left dir n g : square n g → square n (to_left dir g).
Proof.
  intros Hsq. destruct dir; simpl.
  - done.
  - by apply square_reverse.
  - by apply square_zip_star.
  - by apply square_reverse, square_zip_star.
Qed.

Lemma square_from_left dir n g : square n g → square n (from_left dir g).
Proof.
  intros Hsq. destruct dir; simpl.
  - done.
  - by apply square_reverse.
  - by apply square_zip_star.
  - by apply square_zip_star, square_reverse.
Qed.

Lemma to_from_left dir n g : square n g → to_left dir (from_left dir g) = g.
Proof.
  intros Hsq. destruct dir; simpl.
  - done.
  - apply reverse_rows_involutive.
  - by apply (zip_star_involutive n).
  - rewrite (zip_star_involutive n) by by apply square_reverse.
    apply reverse_rows_involutive.
Qed.

Lemma from_to_left dir n g : square n g → from_left dir (to_left dir g) = g.
Proof.
  intros Hsq. destruct dir; simpl.
  - done.
  - apply reverse_rows_involutive.
  - by apply (zip_star_involutive n).
  - rewrite reverse_rows_involutive. by apply (zip_star_involutive n).
Qed.

Lemma square_move_grid dir n g : square n g → square n (move_grid dir g).
Proof.
  intros Hsq. by apply square_from_left, square_merge_grid, square_to_left.
Qed.

Lemma merge_grid_fixed g : merge_grid g = g → some_row_changes g = false.
Proof.
  induction g as [|row g IH]; [done|].
  change (merge_grid (row :: g)) with ((_merge_line row).1 :: merge_grid g).
  intros [= Hrow Hg]. simpl. rewrite IH by done.
  by rewrite bool_decide_eq_false_2 by (intros ?; done).
Qed.

(** *** The cleared grid of [reset] *)

Lemma square_cleared n : square n (replicate n (replicate n 0%Z)).
Proof.
  split; [by rewrite length_replicate|].
  apply Forall_replicate. by rewrite length_replicate.
Qed.

Lemma cell_cleared n r c :
  r < n → c < n → cell (replicate n (replicate n 0%Z)) r c = Some 0%Z.
Proof.
  intros Hr Hc. apply cell_Some. exists (replicate n 0%Z).
  by rewrite !lookup_replicate_2.
Qed.

Lemma tiles_ok_cleared n : tiles_ok (replicate n (replicate n 0%Z)).
Proof. apply Forall_replicate, Forall_replicate, is_tile_0. Qed.

End invariant_facts.

(** ** The calls of [spawn_random] made by the class *)

Section spawn_calls.
Implicit Types (g : list (list Z)) (s : Game) (d : Draw) (n m r c : nat) (v : Z).

Lemma move_left_unfold d s :
  length (grid s) = size s →
  move_left d s =
  if some_row_changes (grid s)
  then s' ← spawn_random d (spawn_point Left s); Some (true, s')
  else Some (false, with_grid (merge_grid (grid s)) s).
Proof. intros Hlen. unfold move_left. by rewrite merge_rows_spec. Qed.

(** In every direction, a move that changes a row returns what its one
    call of [spawn_random] returns, seen from the direction of the move. *)
Lemma move_through_spawn dir d s s2 :
  well_formed s →
  some_row_changes (to_left dir (grid s)) = true →
  spawn_random d (spawn_point dir s) = Some s2 →
  move dir d s = Some (true, with_grid (from_left dir (grid s2)) s2).
Proof.
  intros Hwf Hch Hsp. destruct dir; simpl in Hch |- *.
  - rewrite move_left_unfold, Hch, Hsp by apply Hwf. by destruct s2.
  - unfold move_right. cbn zeta.
    rewrite move_left_unfold by apply (square_reverse _ _ Hwf).
    change (spawn_point Left (_reverse_grid s)) with (spawn_point Right s).
    simpl. by rewrite Hch, Hsp.
  - unfold move_up. cbn zeta.
    rewrite move_left_unfold by apply (square_zip_star _ _ Hwf).
    change (spawn_point Left (_transpose_grid s)) with (spawn_point Up s).
    simpl. by rewrite Hch, Hsp.
  - unfold move_down, move_right. cbn zeta.
    rewrite move_left_unfold
      by apply (square_reverse _ _ (square_zip_star _ _ Hwf)).
    change (spawn_point Left (_reverse_grid (_transpose_grid s)))
      with (spawn_point Down s).
    simpl. by rewrite Hch, Hsp.
Qed.

Lemma well_formed_spawn_point dir s :
  well_formed s → well_formed (spawn_point dir s).
Proof. intros Hwf. by apply square_merge_grid, square_to_left. Qed.

(** A call of [spawn_random] on a well-formed session whose grid has an
    empty cell finds a non-empty list of candidates and places a tile. *)
Lemma spawn_random_places d s :
  well_formed s → has_empty (grid s) →
  ∃ empty s', empty_cells s = Some empty ∧ empty ≠ [] ∧
              spawn_random d s = Some s' ∧
              size s' = size s ∧ score s' = score s ∧
              placed (size s) (new_tile d) (grid s) (grid s').
Proof.
  intros Hwf (r0 & c0 & H0).
  destruct (spawn_random_placed d s r0 c0 Hwf H0) as (r & c & Hcell & Hsp).
  destruct (empty_cells_spec s Hwf) as (empty & He & Hempty).
  exists empty. eexists. split; [done|]. split.
  { intros ->. apply Hempty in H0. by apply elem_of_nil in H0. }
  split; [done|]. simpl. split; [done|]. split; [done|].
  split; [done|]. by exists r, c.
Qed.

(** Any call of [spawn_random] on a well-formed session returns: either it
    places a tile, or the grid is full and the session is left alone. *)
Lemma spawn_random_total d s :
  well_formed s →
  ∃ s', spawn_random d s = Some s' ∧ size s' = size s ∧ score s' = score s ∧
        (s' = s ∨ placed (size s) (new_tile d) (grid s) (grid s')).
Proof.
  intros Hwf.
  destruct (empty_cells_spec s Hwf) as (empty & He & Hempty).
  destruct empty as [|[r0 c0] empty].
  - exists s. split; [|by auto]. apply spawn_random_full; [done|].
    intros r c Hc. apply Hempty in Hc. by apply elem_of_nil in Hc.
  - destruct (spawn_random_places d s Hwf) as (_ & s' & _ & _ & ? & ? & ? & ?).
    { exists r0, c0. apply Hempty. left. }
    exists s'. auto.
Qed.

Lemma has_empty_cleared s : 1 ≤ size s → has_empty (grid (cleared s)).
Proof. intros Hn. exists 0, 0. simpl. apply cell_cleared; lia. Qed.

(** After one tile is placed on a cleared grid of side two or more, an
    empty cell is left. *)
Lemma has_empty_after_first n v g' :
  2 ≤ n → placed n v (replicate n (replicate n 0%Z)) g' → has_empty g'.
Proof.
  intros Hn (_ & r & c & _ & ->).
  destruct (decide (r = 0 ∧ c = 0)) as [[-> ->]|Hne].
  - exists 0, 1. rewrite cell_set_cell, decide_False by lia.
    apply cell_cleared; lia.
  - exists 0, 0. rewrite cell_set_cell, decide_False by lia.
    apply cell_cleared; lia.
Qed.

End spawn_calls.

(** ** The four directions, cell by cell *)

Section move_geometry.
Implicit Types (g : list (list Z)) (l row : list Z) (n i j r c : nat) (v : Z).

Lemma cell_of_row g r row c : g !! r = Some row → cell g r c = row !! c.
Proof. intros Hr. unfold cell. by rewrite Hr. Qed.

Lemma coord_lt dir n i j :
  i < n → j < n → (coord dir n i j).1 < n ∧ (coord dir n i j).2 < n.
Proof. intros Hi Hj. destruct dir; simpl; lia. Qed.

(** The grid on which the loop of [move_left] runs holds, at position [j]
    of its row [i], the cell of the grid at [coord dir n i j]. *)
Lemma cell_to_left dir n g i j :
  square n g → i < n → j < n →
  cell (to_left dir g) i j
  = cell g (coord dir n i j).1 (coord dir n i j).2.
Proof.
  intros Hsq Hi Hj. destruct dir; simpl.
  - done.
  - by apply cell_reverse.
  - apply (cell_zip_star n), Hsq.
  - rewrite (cell_reverse n) by (by try apply square_zip_star).
    apply (cell_zip_star n), Hsq.
Qed.

Lemma cell_from_left dir n g i j :
  square n g → i < n → j < n →
  cell (from_left dir g) (coord dir n i j).1 (coord dir n i j).2
  = cell g i j.
Proof.
  intros Hsq Hi Hj. destruct dir; simpl.
  - done.
  - rewrite (cell_reverse n) by (done || lia).
    by replace (n - S (n - S j)) with j by lia.
  - apply (cell_zip_star n), Hsq.
  - rewrite (cell_zip_star n) by by apply square_reverse.
    rewrite (cell_reverse n) by (done || lia).
    by replace (n - S (n - S j)) with j by lia.
Qed.

Lemma line_cells_length dir n g i : length (line_cells dir n g i) = n.
Proof. unfold line_cells. by rewrite length_fmap, length_seq. Qed.

Lemma to_left_lines dir n g :
  square n g → to_left dir g = line_cells dir n g <$> seq 0 n.
Proof.
  intros Hsq. pose proof (square_to_left dir n g Hsq) as [Hlen Hrows].
  apply list_eq. intros i. rewrite list_lookup_fmap.
  destruct (decide (i < n)) as [Hi|Hi].
  - rewrite lookup_seq_lt by done. simpl.
    destruct (lookup_lt_is_Some_2 (to_left dir g) i) as [row Hrow]; [lia|].
    rewrite Hrow. f_equal.
    rewrite Forall_lookup in Hrows. pose proof (Hrows _ _ Hrow) as Hrl.
    simpl in Hrl. apply list_eq. intros j. unfold line_cells.
    rewrite list_lookup_fmap. destruct (decide (j < n)) as [Hj|Hj].
    + rewrite lookup_seq_lt by done. simpl.
      rewrite <- (cell_to_left dir n g i j) by done.
      rewrite (cell_of_row _ _ _ _ Hrow).
      by destruct (lookup_lt_is_Some_2 row j) as [v ->]; [lia|].
    + rewrite lookup_seq_ge by lia. simpl. by rewrite lookup_ge_None_2 by lia.
  - rewrite lookup_seq_ge by lia. simpl. by rewrite lookup_ge_None_2 by lia.
Qed.

(** The merged grid of a move, line by line. *)
Lemma cell_move_grid dir n g i j :
  square n g → i < n → j < n →
  cell (move_grid dir g) (coord dir n i j).1 (coord dir n i j).2
  = (_merge_line (line_cells dir n g i)).1 !! j.
Proof.
  intros Hsq Hi Hj. unfold move_grid.
  rewrite (cell_from_left dir n) by
    (done || by apply square_merge_grid, square_to_left).
  rewrite (to_left_lines dir n g Hsq). unfold merge_grid.
  rewrite <- list_fmap_compose.
  apply cell_of_row. rewrite list_lookup_fmap, lookup_seq_lt by done. done.
Qed.

Lemma some_row_changes_lines dir n g :
  square n g →
  some_row_changes (to_left dir g) = true
  ↔ ∃ i, i < n ∧
         (_merge_line (line_cells dir n g i)).1 ≠ line_cells dir n g i.
Proof.
  intros Hsq. rewrite some_row_changes_Exists, (to_left_lines dir n g Hsq).
  rewrite Exists_exists. split.
  - intros (row & (i & -> & Hi)%list_elem_of_fmap & Hch).
    apply elem_of_seq in Hi. exists i. split; [lia | done].
  - intros (i & Hi & Hch). exists (line_cells dir n g i). split; [|done].
    apply list_elem_of_fmap. exists i. split; [done|].
    apply elem_of_seq. lia.
Qed.

Lemma gained_sum_lines dir n g :
  square n g →
  gained_sum (to_left dir g)
  = line_sum ((λ i, (_merge_line (line_cells dir n g i)).2) <$> seq 0 n).
Proof.
  intros Hsq. unfold gained_sum.
  by rewrite (to_left_lines dir n g Hsq), <- list_fmap_compose.
Qed.

Lemma tiles_insert l c v :
  l !! c = Some 0%Z → v ≠ 0%Z → tiles (<[c := v]> l) = S (tiles l).
Proof.
  intros Hc Hv. revert c Hc. induction l as [|a l IH]; intros [|c] Hc;
    simplify_eq/=.
  - rewrite !tiles_cons, decide_True, decide_False by (done || lia). done.
  - rewrite !tiles_cons, (IH c Hc). lia.
Qed.

Lemma grid_tiles_set_cell g r c v :
  cell g r c = Some 0%Z → v ≠ 0%Z →
  grid_tiles (set_cell r c v g) = S (grid_tiles g).
Proof.
  intros (row & Hr & Hc)%cell_Some Hv. unfold set_cell, grid_tiles.
  revert r Hr. induction g as [|row' g IH]; intros [|r] Hr; simplify_eq/=.
  - by rewrite tiles_insert.
  - rewrite (IH r Hr). lia.
Qed.

Lemma new_tile_nonzero d : new_tile d ≠ 0%Z.
Proof. unfold new_tile. by destruct (lt_one_tenth d). Qed.

(** What [placed] says of the cells, read back one by one. *)
Lemma placed_read_back n v g g' :
  placed n v g g' → v ≠ 0%Z →
  ∃ r c, cell g r c = Some 0%Z ∧ g' = set_cell r c v g ∧
         cell g' r c = Some v ∧
         (∀ r' c', (r', c') ≠ (r, c) → cell g' r' c' = cell g r' c') ∧
         grid_tiles g' = S (grid_tiles g).
Proof.
  intros (_ & r & c & Hcell & ->) Hv. exists r, c.
  split; [done|]. split; [done|]. split; [|split].
  - rewrite cell_set_cell, decide_True by done. by rewrite Hcell.
  - intros r' c' Hne. rewrite cell_set_cell, decide_False; [done|].
    intros [-> ->]. done.
  - by apply grid_tiles_set_cell.
Qed.

End move_geometry.

(** ** Concrete sessions *)

Lemma well_formed_locked : well_formed locked_game.
Proof. split; [done | by repeat constructor]. Defined.

Lemma well_formed_sample : well_formed sample_game.
Proof. split; [done | by repeat constructor]. Defined.

Lemma well_formed_packed : well_formed packed_game.
Proof. split; [done | by repeat constructor]. Defined.

Lemma square_remerge : square 4 remerge_grid.
Proof. split; [done | by repeat constructor]. Defined.

(** ** The properties of the specification *)

(** C1.  On a well-formed session each of the four moves returns.  The
    boolean it returns is true exactly when [_merge_line] changes some line
    of the grid read in the direction of the move: a row for left and
    right, a column for up and down.  The merged grid of the direction
    holds, line by line, the merged lines.  When the boolean is true, the
    score has grown by the sum of the gains of all lines, and the new grid
    is the merged grid except for one cell: that cell was empty in the
    merged grid and now holds a 2 or a 4, every other cell reads as in the
    merged grid, and the grid has exactly one tile more. *)
Theorem move_result dir d s :
  well_formed s →
  ∃ moved s',
    move dir d s = Some (moved, s') ∧
    (moved = true ↔
     Exists (λ row, (_merge_line row).1 ≠ row) (to_left dir (grid s))) ∧
    (moved = true ↔
     ∃ i, i < size s ∧
          (_merge_line (line_cells dir (size s) (grid s) i)).1
          ≠ line_cells dir (size s) (grid s) i) ∧
    (∀ i j, i < size s → j < size s →
       cell (move_grid dir (grid s))
            (coord dir (size s) i j).1 (coord dir (size s) i j).2
       = (_merge_line (line_cells dir (size s) (grid s) i)).1 !! j) ∧
    (moved = true →
     size s' = size s ∧ well_formed s' ∧
     score s' = (score s + gained_sum (to_left dir (grid s)))%Z ∧
     score s'
     = (score s
        + line_sum ((λ i, (_merge_line
                             (line_cells dir (size s) (grid s) i)).2)
                      <$> seq 0 (size s)))%Z ∧
     ∃ r c v, (v = 2 ∨ v = 4)%Z ∧
              cell (move_grid dir (grid s)) r c = Some 0%Z ∧
              grid s' = set_cell r c v (move_grid dir (grid s)) ∧
              cell (grid s') r c = Some v ∧
              (∀ r' c', (r', c') ≠ (r, c) →
                        cell (grid s') r' c'
                        = cell (move_grid dir (grid s)) r' c') ∧
              grid_tiles (grid s')
              = S (grid_tiles (move_grid dir (grid s)))).
Proof.
  intros Hwf.
  destruct (move_dir_spec dir d s Hwf) as (s' & Hmv & Hsize & Hwf' & H).
  exists (some_row_changes (to_left dir (grid s))), s'.
  split; [done|]. split; [apply some_row_changes_Exists|].
  split; [by apply some_row_changes_lines|].
  split; [intros i j; by apply cell_move_grid|].
  intros Hch. rewrite Hch in H. destruct H as (Hscore & Hpl).
  split; [done|]. split; [done|]. split; [done|].
  split; [by rewrite <- (gained_sum_lines dir (size s))|].
  destruct (placed_read_back _ _ _ _ Hpl (new_tile_nonzero d))
    as (r & c & H0 & Hg & Hv & Hothers & Htiles).
  exists r, c, (new_tile d). split.
  { unfold new_tile. destruct (lt_one_tenth d); auto. }
  done.
Qed.

Lemma move_result_witness :
  well_formed sample_game ∧
  move Down (mkDraw 1 false) sample_game
  = Some (true,
          mkGame 4 [[0; 0; 0; 0]; [2; 0; 0; 0]; [0; 2; 0; 4]; [4; 8; 8; 16]]%Z
                 12) ∧
  ∃ moved s',
    move Down (mkDraw 1 false) sample_game = Some (moved, s') ∧
    (moved = true ↔
     Exists (λ row, (_merge_line row).1 ≠ row)
            (to_left Down (grid sample_game))) ∧
    (moved = true ↔
     ∃ i, i < size sample_game ∧
          (_merge_line (line_cells Down (size sample_game)
                                   (grid sample_game) i)).1
          ≠ line_cells Down (size sample_game) (grid sample_game) i) ∧
    (∀ i j, i < size sample_game → j < size sample_game →
       cell (move_grid Down (grid sample_game))
            (coord Down (size sample_game) i j).1
            (coord Down (size sample_game) i j).2
       = (_merge_line (line_cells Down (size sample_game)
                                  (grid sample_game) i)).1 !! j) ∧
    (moved = true →
     size s' = size sample_game ∧ well_formed s' ∧
     score s' = (score sample_game
                 + gained_sum (to_left Down (grid sample_game)))%Z ∧
     score s'
     = (score sample_game
        + line_sum ((λ i, (_merge_line
                             (line_cells Down (size sample_game)
                                         (grid sample_game) i)).2)
                      <$> seq 0 (size sample_game)))%Z ∧
     ∃ r c v, (v = 2 ∨ v = 4)%Z ∧
              cell (move_grid Down (grid sample_game)) r c = Some 0%Z ∧
              grid s' = set_cell r c v (move_grid Down (grid sample_game)) ∧
              cell (grid s') r c = Some v ∧
              (∀ r' c', (r', c') ≠ (r, c) →
                        cell (grid s') r' c'
                        = cell (move_grid Down (grid sample_game)) r' c') ∧
              grid_tiles (grid s')
              = S (grid_tiles (move_grid Down (grid sample_game)))).
Proof.
  split; [exact well_formed_sample|]. split; [reflexivity|].
  exact (move_result Down (mkDraw 1 false) sample_game well_formed_sample).
Defined.

(** C2.  On a well-formed session [can_move] returns, and it returns true
    exactly when some cell is 0, or two cells next to each other in a row
    are equal, or two cells next to each other in a column are equal.  On
    the full grid that alternates 2 and 4 it returns false. *)
Theorem can_move_correct s :
  well_formed s →
  (∃ b, can_move s = Some b ∧
        (b = true ↔
         has_empty (grid s) ∨ has_row_pair (grid s)
         ∨ has_column_pair (grid s))) ∧
  can_move locked_game = Some false.
Proof. intros Hwf. split; [by apply can_move_spec | done]. Qed.

Lemma can_move_correct_witness :
  well_formed sample_game ∧
  (∃ b, can_move sample_game = Some b ∧
        (b = true ↔
         has_empty (grid sample_game) ∨ has_row_pair (grid sample_game)
         ∨ has_column_pair (grid sample_game))) ∧
  can_move locked_game = Some false.
Proof.
  split; [exact well_formed_sample|].
  exact (can_move_correct sample_game well_formed_sample).
Defined.

(** C3.  [_merge_line] turns [2,2,0,0] into [4,0,0,0] and gains 4; it
    turns [2,2,2,2] into [4,4,0,0] and gains 8: the two pairs merge
    separately. *)
Theorem merge_line_examples :
  _merge_line [2; 2; 0; 0]%Z = ([4; 0; 0; 0]%Z, 4%Z) ∧
  _merge_line [2; 2; 2; 2]%Z = ([4; 4; 0; 0]%Z, 8%Z).
Proof. split; reflexivity. Qed.

(** C4, as stated, fails: the row [2,2,4,0] becomes [4,4,0,0] under a first
    move to the left and [8,0,0,0] under a second one. *)
Lemma move_grid_twice_differs :
  square 4 remerge_grid ∧
  move_grid Left (move_grid Left remerge_grid) ≠ move_grid Left remerge_grid.
Proof. split; [exact square_remerge | by intros [=]]. Qed.

(** C4, amended.  When no line of the once-moved grid, read in the
    direction of the move, holds two equal tiles next to each other, the
    grid-only move applied a second time gives the same grid. *)
Theorem move_grid_stable dir n g :
  square n g →
  (∀ row, row ∈ to_left dir (move_grid dir g) → has_pair row = false) →
  move_grid dir (move_grid dir g) = move_grid dir g.
Proof.
  intros Hsq Hnp. unfold move_grid in *.
  pose proof (square_merge_grid _ _ (square_to_left dir _ _ Hsq)) as Hsq'.
  rewrite (to_from_left dir n) in * by done. f_equal.
  revert Hnp. generalize (to_left dir g). clear. intros g Hnp.
  induction g as [|row g IH]; [done|].
  change (merge_grid (row :: g))
    with ((_merge_line row).1 :: merge_grid g) in *.
  change (merge_grid ((_merge_line row).1 :: merge_grid g))
    with ((_merge_line (_merge_line row).1).1 :: merge_grid (merge_grid g)).
  rewrite _merge_line_stable by (apply Hnp; left).
  rewrite IH; [done|]. intros row' Hrow'. apply Hnp. by right.
Qed.

Lemma move_grid_stable_witness :
  square 4 (grid sample_game) ∧
  (∀ row, row ∈ to_left Up (move_grid Up (grid sample_game)) →
          has_pair row = false) ∧
  move_grid Up (move_grid Up (grid sample_game))
  = move_grid Up (grid sample_game).
Proof.
  assert (∀ row, row ∈ to_left Up (move_grid Up (grid sample_game)) →
                 has_pair row = false) as Hnp.
  { intros row Hrow. vm_compute in Hrow.
    repeat (apply elem_of_cons in Hrow as [->|Hrow]; [reflexivity|]).
    by apply elem_of_nil in Hrow. }
  split; [exact well_formed_sample|]. split; [exact Hnp|].
  exact (move_grid_stable Up 4 (grid sample_game) well_formed_sample Hnp).
Defined.

(** C5.  [_compress_line] keeps the length of the line; the result starts
    with the non-zero cells of the line, in their order, and the rest is
    zeros. *)
Theorem compress_line_shape line :
  length (_compress_line line) = length line ∧
  ∃ k, take k (_compress_line line) = filter (λ v, v ≠ 0%Z) line ∧
       Forall (λ v, v ≠ 0%Z) (take k (_compress_line line)) ∧
       Forall (λ v, v = 0%Z) (drop k (_compress_line line)).
Proof.
  split; [apply _compress_line_length|].
  exists (length (filter (λ v, v ≠ 0%Z) line)).
  unfold _compress_line. cbn zeta.
  rewrite take_app_length, drop_app_length. split; [done|]. split.
  - apply Forall_forall. by intros v [Hv _]%list_elem_of_filter.
  - by apply Forall_replicate.
Qed.

(** C6.  On a well-formed session, a move whose merged grid is the grid
    itself returns false and leaves the session as it was: same grid, same
    score, whatever the random draw. *)
Theorem move_unchanged dir d s :
  well_formed s →
  move_grid dir (grid s) = grid s →
  move dir d s = Some (false, s).
Proof.
  intros Hwf Hsame.
  assert (some_row_changes (to_left dir (grid s)) = false) as Hch.
  { apply merge_grid_fixed. apply (f_equal (to_left dir)) in Hsame.
    unfold move_grid in Hsame. rewrite (to_from_left dir (size s)) in Hsame.
    - done.
    - by apply square_merge_grid, square_to_left. }
  destruct (move_dir_spec dir d s Hwf) as (s' & Hmv & _ & _ & H).
  rewrite Hch in Hmv, H. by subst s'.
Qed.

Lemma move_unchanged_witness :
  well_formed packed_game ∧
  move_grid Left (grid packed_game) = grid packed_game ∧
  move Left (mkDraw 3 true) packed_game = Some (false, packed_game).
Proof.
  split; [exact well_formed_packed|]. split; [reflexivity|].
  exact (move_unchanged Left (mkDraw 3 true) packed_game
           well_formed_packed eq_refl).
Defined.
(** C7.  On a well-formed session whose cells are all 0 or a power of two
    from 2 on, [reset], [spawn_random] and the four moves return a session
    that is again well formed and whose cells are all 0 or a power of two
    from 2 on. *)
Theorem invariant_preserved s :
  well_formed s → tiles_ok (grid s) →
  (∀ d1 d2, ∃ s', reset d1 d2 s = Some s' ∧
                  well_formed s' ∧ tiles_ok (grid s')) ∧
  (∀ d, ∃ s', spawn_random d s = Some s' ∧
              well_formed s' ∧ tiles_ok (grid s')) ∧
  (∀ dir d, ∃ moved s', move dir d s = Some (moved, s') ∧
                        well_formed s' ∧ tiles_ok (grid s')).
Proof.
  assert (∀ d s0, well_formed s0 → tiles_ok (grid s0) →
            ∃ s', spawn_random d s0 = Some s' ∧
                  well_formed s' ∧ tiles_ok (grid s')) as Hspawn.
  { intros d s0 Hwf Hok.
    destruct (spawn_random_total d s0 Hwf) as (s' & Hsp & Hsize & _ & Hcase).
    exists s'. split; [done|]. destruct Hcase as [->|Hpl]; [done|]. split.
    - unfold well_formed. rewrite Hsize. by eapply placed_square.
    - eapply tiles_ok_placed; [apply is_tile_new|done..]. }
  intros Hwf Hok. split; [|split].
  - intros d1 d2. unfold reset. fold (cleared s).
    destruct (Hspawn d1 (cleared s)) as (s1 & -> & Hwf1 & Hok1).
    { apply square_cleared. }
    { apply tiles_ok_cleared. }
    simpl. by apply Hspawn.
  - intros d. by apply Hspawn.
  - intros dir d.
    destruct (move_dir_spec dir d s Hwf) as (s' & Hmv & Hsize & Hwf' & H).
    eexists _, s'. split; [done|]. split; [done|].
    destruct (some_row_changes (to_left dir (grid s))).
    + destruct H as [_ Hpl].
      eapply tiles_ok_placed; [apply is_tile_new|done|].
      apply (tiles_ok_from_left dir (size s)).
      * by apply square_merge_grid, square_to_left.
      * by apply tiles_ok_merge_grid, (tiles_ok_to_left dir (size s)).
    + by subst s'.
Qed.

Lemma tiles_ok_sample : tiles_ok (grid sample_game).
Proof.
  assert (is_tile 2) as H2 by (right; by exists 0).
  assert (is_tile 4) as H4 by (right; by exists 1).
  assert (is_tile 8) as H8 by (right; by exists 2).
  assert (is_tile 16) as H16 by (right; by exists 3).
  pose proof is_tile_0 as H0.
  repeat first [apply Forall_nil_2 | apply Forall_cons_2]; assumption.
Defined.

Lemma invariant_preserved_witness :
  well_formed sample_game ∧ tiles_ok (grid sample_game) ∧
  (∀ d1 d2, ∃ s', reset d1 d2 sample_game = Some s' ∧
                  well_formed s' ∧ tiles_ok (grid s')) ∧
  (∀ d, ∃ s', spawn_random d sample_game = Some s' ∧
              well_formed s' ∧ tiles_ok (grid s')) ∧
  (∀ dir d, ∃ moved s', move dir d sample_game = Some (moved, s') ∧
                        well_formed s' ∧ tiles_ok (grid s')).
Proof.
  split; [exact well_formed_sample|]. split; [exact tiles_ok_sample|].
  exact (invariant_preserved sample_game well_formed_sample tiles_ok_sample).
Defined.

(** C8.  The branch of [spawn_random] that returns without placing a tile
    is not taken by the calls that the class makes.  When a move on a
    well-formed session returns true, its call of [spawn_random] finds a
    non-empty list of empty cells and places a tile, and the move returns
    the session so obtained.  When [reset] runs on a session of size 2 or
    more, each of its two calls of [spawn_random] finds a non-empty list of
    empty cells and places a tile. *)
Theorem spawn_always_places :
  (∀ dir d s s',
     well_formed s → move dir d s = Some (true, s') →
     ∃ empty s2,
       empty_cells (spawn_point dir s) = Some empty ∧ empty ≠ [] ∧
       spawn_random d (spawn_point dir s) = Some s2 ∧
       placed (size s) (new_tile d) (grid (spawn_point dir s)) (grid s2) ∧
       s' = with_grid (from_left dir (grid s2)) s2) ∧
  (∀ d1 d2 s,
     2 ≤ size s →
     ∃ empty1 s1 empty2 s2,
       empty_cells (cleared s) = Some empty1 ∧ empty1 ≠ [] ∧
       spawn_random d1 (cleared s) = Some s1 ∧
       placed (size s) (new_tile d1) (grid (cleared s)) (grid s1) ∧
       empty_cells s1 = Some empty2 ∧ empty2 ≠ [] ∧
       spawn_random d2 s1 = Some s2 ∧
       placed (size s) (new_tile d2) (grid s1) (grid s2) ∧
       reset d1 d2 s = Some s2).
Proof.
  split.
  - intros dir d s s' Hwf Hmv.
    destruct (move_dir_spec dir d s Hwf) as (s'' & Hmv' & _).
    rewrite Hmv in Hmv'. injection Hmv' as Hch _. symmetry in Hch.
    destruct (spawn_random_places d (spawn_point dir s))
      as (empty & s2 & He & Hne & Hsp & _ & _ & Hpl).
    { by apply well_formed_spawn_point. }
    { apply (some_row_changes_empty_cell (size s)); [|done].
      by apply square_to_left. }
    exists empty, s2. repeat (split; [done|]).
    rewrite (move_through_spawn dir d s s2 Hwf Hch Hsp) in Hmv. congruence.
  - intros d1 d2 s Hn.
    destruct (spawn_random_places d1 (cleared s))
      as (e1 & s1 & He1 & Hne1 & Hsp1 & Hsize1 & _ & Hpl1).
    { apply square_cleared. }
    { apply has_empty_cleared. lia. }
    simpl in Hsize1, Hpl1.
    destruct (spawn_random_places d2 s1)
      as (e2 & s2 & He2 & Hne2 & Hsp2 & _ & _ & Hpl2).
    { unfold well_formed. rewrite Hsize1. by eapply placed_square. }
    { by eapply has_empty_after_first. }
    rewrite Hsize1 in Hpl2.
    exists e1, s1, e2, s2. repeat (split; [done|]).
    unfold reset. fold (cleared s). by rewrite Hsp1.
Qed.

Lemma spawn_always_places_witness :
  (well_formed sample_game ∧
   move Left (mkDraw 7 false) sample_game
   = Some (true,
           mkGame 4 [[4; 0; 0; 0]; [0; 0; 0; 0]; [8; 2; 0; 0]; [2; 4; 8; 16]]%Z
                  12) ∧
   ∃ empty s2,
     empty_cells (spawn_point Left sample_game) = Some empty ∧ empty ≠ [] ∧
     spawn_random (mkDraw 7 false) (spawn_point Left sample_game) = Some s2 ∧
     placed 4 2 (grid (spawn_point Left sample_game)) (grid s2) ∧
     mkGame 4 [[4; 0; 0; 0]; [0; 0; 0; 0]; [8; 2; 0; 0]; [2; 4; 8; 16]]%Z 12
     = with_grid (from_left Left (grid s2)) s2) ∧
  (2 ≤ size sample_game ∧
   ∃ empty1 s1 empty2 s2,
     empty_cells (cleared sample_game) = Some empty1 ∧ empty1 ≠ [] ∧
     spawn_random (mkDraw 5 false) (cleared sample_game) = Some s1 ∧
     placed 4 2 (grid (cleared sample_game)) (grid s1) ∧
     empty_cells s1 = Some empty2 ∧ empty2 ≠ [] ∧
     spawn_random (mkDraw 14 true) s1 = Some s2 ∧
     placed 4 4 (grid s1) (grid s2) ∧
     reset (mkDraw 5 false) (mkDraw 14 true) sample_game = Some s2).
Proof.
  split.
  - split; [exact well_formed_sample|]. split; [reflexivity|].
    exact (proj1 spawn_always_places Left (mkDraw 7 false) sample_game _
             well_formed_sample eq_refl).
  - assert (2 ≤ size sample_game) as Hn by (simpl; lia).
    split; [exact Hn|].
    exact (proj2 spawn_always_places (mkDraw 5 false) (mkDraw 14 true)
             sample_game Hn).
Defined.

(** C9.  On a well-formed session, transposing the grid twice gives the
    session back, and so does reversing the rows twice. *)
Theorem transforms_involutive s :
  well_formed s →
  _transpose_grid (_transpose_grid s) = s ∧
  _reverse_grid (_reverse_grid s) = s.
Proof.
  intros Hwf. unfold _transpose_grid, _reverse_grid, with_grid. simpl.
  rewrite (zip_star_involutive _ _ Hwf), reverse_rows_involutive.
  by destruct s.
Qed.

Lemma transforms_involutive_witness :
  well_formed sample_game ∧
  _transpose_grid (_transpose_grid sample_game) = sample_game ∧
  _reverse_grid (_reverse_grid sample_game) = sample_game.
Proof.
  split; [exact well_formed_sample|].
  exact (transforms_involutive sample_game well_formed_sample).
Defined.

(** C10.  On a square grid, the grid-only part of each of the four moves
    keeps the sum of all cells. *)
Theorem move_grid_sum dir n g :
  square n g → grid_sum (move_grid dir g) = grid_sum g.
Proof.
  intros Hsq. unfold move_grid.
  pose proof (square_zip_star _ _ Hsq) as Hsqt.
  destruct dir; simpl.
  - apply grid_sum_merge_grid.
  - by rewrite grid_sum_reverse, grid_sum_merge_grid, grid_sum_reverse.
  - rewrite (grid_sum_zip_star n), grid_sum_merge_grid, (grid_sum_zip_star n);
      [done | apply Hsq | by apply square_merge_grid].
  - rewrite (grid_sum_zip_star n), grid_sum_reverse, grid_sum_merge_grid,
      grid_sum_reverse, (grid_sum_zip_star n); [done | apply Hsq |].
    by apply square_reverse, square_merge_grid, square_reverse.
Qed.

Lemma move_grid_sum_witness :
  square 4 (grid sample_game) ∧
  grid_sum (move_grid Down (grid sample_game)) = grid_sum (grid sample_game).
Proof.
  split; [exact well_formed_sample|].
  exact (move_grid_sum Down 4 (grid sample_game) well_formed_sample).
Defined.

Section stalemate_lines.
Implicit Types (l line rest pre : list Z) (a b v g : Z).

Lemma has_pair_adjacent l : has_pair l = true ↔ adjacent_tiles l.
Proof.
  induction l as [|a l IH]; simpl.
  - split; [done | by intros (c & v & _ & ? & _)].
  - destruct l as [|b l].
    + split; [done|]. intros (c & v & _ & H1 & H2). by destruct c.
    + rewrite orb_true_iff, bool_decide_eq_true, IH. split.
      * intros [[Ha ->]|(c & v & Hv & H1 & H2)].
        -- by exists 0, b.
        -- by exists (S c), v.
      * intros (c & v & Hv & H1 & H2). destruct c as [|c].
        -- left. simpl in *. by simplify_eq.
        -- right. by exists c, v.
Qed.

Lemma scan_from_fixed rest : ∀ a,
  scan_from a rest = (a :: rest, 0%Z) → has_pair (a :: rest) = false.
Proof.
  induction rest as [|b rest IH]; intros a Hscan; [done|].
  change (has_pair (a :: b :: rest))
    with (bool_decide (a ≠ 0%Z ∧ a = b) || has_pair (b :: rest)).
  simpl in Hscan.
  destruct (decide (a ≠ 0%Z ∧ a = b)) as [[Ha <-]|Hab].
  - destruct (scan_from 0 rest). injection Hscan as Hdouble _. lia.
  - specialize (IH b). destruct (scan_from b rest) as [l' g'].
    injection Hscan as -> ->. rewrite IH by done.
    by rewrite bool_decide_eq_false_2.
Qed.

(** A line with two equal tiles side by side loses a tile in the scan. *)
Lemma scan_pair_tiles l : has_pair l = true → tiles (scan l).1 < tiles l.
Proof.
  intros Hp. destruct (scan_tiles l) as [Hid|Hlt]; [|done].
  destruct l as [|a rest]; [done|].
  apply scan_from_fixed in Hid. congruence.
Qed.

Lemma has_pair_middle pre v rest :
  v ≠ 0%Z → has_pair (pre ++ v :: v :: rest) = true.
Proof.
  intros Hv. induction pre as [|a pre IH]; simpl.
  - by rewrite bool_decide_eq_true_2.
  - destruct (pre ++ v :: v :: rest) eqn:E; [by destruct pre|].
    rewrite IH. apply orb_true_r.
Qed.

Lemma adjacent_tiles_compress l :
  adjacent_tiles l → has_pair (_compress_line l) = true.
Proof.
  intros (c & v & Hv & H1 & H2).
  rewrite <- (take_drop_middle l c v H1).
  rewrite (drop_S l v (S c) H2).
  unfold _compress_line. cbn zeta.
  rewrite filter_app, !filter_cons_True by done.
  rewrite <- app_assoc. simpl.
  by apply has_pair_middle.
Qed.

(** Two equal tiles side by side: [_merge_line] changes the line. *)
Lemma _merge_line_pair_changes l :
  adjacent_tiles l → (_merge_line l).1 ≠ l.
Proof.
  intros Hadj Hsame. apply (f_equal tiles) in Hsame.
  rewrite _merge_line_scan in Hsame. simpl in Hsame.
  rewrite _compress_line_tiles in Hsame.
  pose proof (scan_pair_tiles _ (adjacent_tiles_compress l Hadj)) as Hlt.
  rewrite _compress_line_tiles in Hlt. lia.
Qed.

(** A full line without two equal neighbours is left as it is. *)
Lemma _merge_line_locked l :
  0%Z ∉ l → ¬ adjacent_tiles l → (_merge_line l).1 = l.
Proof.
  intros Hfull Hadj.
  assert (tiles l = length l) as Htiles.
  { clear Hadj. induction l as [|a l IH]; [done|].
    rewrite tiles_cons, decide_True.
    - simpl. rewrite IH; [done|]. intros ?. apply Hfull. by right.
    - intros ->. apply Hfull. left. }
  assert (has_pair l = false) as Hp.
  { destruct (has_pair l) eqn:E; [|done]. by apply has_pair_adjacent in E. }
  rewrite _merge_line_scan. simpl.
  rewrite (_compress_line_full l Htiles), (scan_no_pair l Hp). simpl.
  by apply _compress_line_full.
Qed.

Lemma _compress_line_head l v :
  v ∈ l → v ≠ 0%Z → ∃ h t, _compress_line l = h :: t ∧ h ≠ 0%Z.
Proof.
  intros Hin Hv. unfold _compress_line. cbn zeta.
  assert (v ∈ filter (λ v, v ≠ 0%Z) l) as Hf by by apply list_elem_of_filter.
  destruct (filter (λ v, v ≠ 0%Z) l) as [|h t] eqn:E.
  - by apply elem_of_nil in Hf.
  - exists h, (t ++ replicate (length l - length (h :: t)) 0%Z).
    split; [done|].
    assert (h ∈ filter (λ v, v ≠ 0%Z) l) as Hh by (rewrite E; left).
    by apply list_elem_of_filter in Hh as [? _].
Qed.

Lemma scan_from_head a rest :
  a ≠ 0%Z → ∃ h t, (scan_from a rest).1 = h :: t ∧ h ≠ 0%Z.
Proof.
  intros Ha. destruct rest as [|b rest]; simpl; [by exists a, []|].
  destruct (decide (a ≠ 0%Z ∧ a = b)).
  - destruct (scan_from 0 rest) as [l' g']. exists (a * 2)%Z, l'.
    split; [done | lia].
  - destruct (scan_from b rest) as [l' g']. by exists a, l'.
Qed.

(** The merged line of a line that holds a tile starts with a tile. *)
Lemma _merge_line_head l v :
  v ∈ l → v ≠ 0%Z → ∃ h t, (_merge_line l).1 = h :: t ∧ h ≠ 0%Z.
Proof.
  intros Hin Hv. rewrite _merge_line_scan. simpl.
  destruct (_compress_line_head l v Hin Hv) as (a & rest & -> & Ha).
  destruct (scan_from_head a rest Ha) as (h & t & Hs & Hh).
  simpl. rewrite Hs. apply (_compress_line_head _ h); [left | done].
Qed.

Lemma _compress_line_last l : 0%Z ∈ l → last (_compress_line l) = Some 0%Z.
Proof.
  intros Hin. unfold _compress_line. cbn zeta.
  pose proof (length_filter_lt (λ v, v ≠ 0%Z) l 0%Z Hin) as Hlt.
  destruct (length l - length (filter (λ v, v ≠ 0%Z) l)) as [|k] eqn:E.
  - assert (¬ (0 ≠ 0)%Z) as H0 by (intros H; by apply H).
    specialize (Hlt H0). lia.
  - by rewrite replicate_S_end, app_assoc, last_snoc.
Qed.

(** A line that holds both a tile and an empty cell is changed by
    [_merge_line], or its mirror image is. *)
Lemma _merge_line_gap_changes l v :
  0%Z ∈ l → v ∈ l → v ≠ 0%Z →
  (_merge_line l).1 ≠ l ∨ (_merge_line (reverse l)).1 ≠ reverse l.
Proof.
  intros H0 Hin Hv.
  destruct (decide ((_merge_line l).1 = l)) as [Hsame|]; [right | by left].
  assert (_compress_line l = l) as Hpacked.
  { rewrite <- Hsame at 1. rewrite _merge_line_scan. simpl.
    rewrite _compress_line_idemp. by rewrite _merge_line_scan in Hsame. }
  assert (head (reverse l) = Some 0%Z) as Hhead.
  { rewrite head_reverse, <- Hpacked. by apply _compress_line_last. }
  destruct (_merge_line_head (reverse l) v) as (h & t & Hm & Hh);
    [by apply elem_of_reverse | done |].
  intros Heq. rewrite Hm in Heq. rewrite <- Heq in Hhead.
  simpl in Hhead. congruence.
Qed.

End stalemate_lines.
Section stalemate_grids.
Implicit Types (g : list (list Z)) (row col : list Z) (s : Game) (n r c : nat).

Lemma cell_row g r row c : g !! r = Some row → cell g r c = row !! c.
Proof. intros Hr. unfold cell. by rewrite Hr. Qed.

Lemma zip_star_column n g c :
  square n g → c < n →
  ∃ col, zip_star g !! c = Some col ∧ ∀ r, col !! r = cell g r c.
Proof.
  intros Hsq Hc. pose proof (square_zip_star _ _ Hsq) as [Hlen _].
  destruct (lookup_lt_is_Some_2 (zip_star g) c) as [col Hcol]; [lia|].
  exists col. split; [done|]. intros r.
  rewrite <- (cell_zip_star n) by apply Hsq. symmetry. by apply cell_row.
Qed.

Lemma adjacent_tiles_reverse l : adjacent_tiles (reverse l) → adjacent_tiles l.
Proof.
  intros (c & v & Hv & H1 & H2).
  apply reverse_lookup_Some in H1 as [H1 Hc1].
  apply reverse_lookup_Some in H2 as [H2 Hc2].
  exists (length l - S (S c)), v. split; [done|]. split; [done|].
  by replace (S (length l - S (S c))) with (length l - S c) by lia.
Qed.

Lemma locked_rows_reverse g : locked_rows g → locked_rows (reverse <$> g).
Proof.
  intros Hg row' (row & -> & Hrow)%list_elem_of_fmap.
  destruct (Hg row Hrow) as [H0 Hadj]. split.
  - by rewrite elem_of_reverse.
  - intros ?. by apply Hadj, adjacent_tiles_reverse.
Qed.

Lemma locked_rows_grid g :
  ¬ has_empty g → ¬ has_row_pair g → locked_rows g.
Proof.
  intros He Hp row [r Hr]%list_elem_of_lookup. split.
  - intros [c Hc]%list_elem_of_lookup. apply He. exists r, c.
    by rewrite (cell_row _ _ _ _ Hr).
  - intros (c & v & _ & H1 & H2). apply Hp. exists r, c, v.
    rewrite !(cell_row _ _ _ _ Hr). by rewrite Nat.add_1_r.
Qed.

Lemma locked_rows_columns n g :
  square n g → ¬ has_empty g → ¬ has_column_pair g →
  locked_rows (zip_star g).
Proof.
  intros Hsq He Hp col [c Hc]%list_elem_of_lookup.
  assert (∀ r, col !! r = cell g r c) as Hcol.
  { intros r. rewrite <- (cell_zip_star n) by apply Hsq. symmetry.
    by apply cell_row. }
  split.
  - intros [r Hr]%list_elem_of_lookup. apply He. exists r, c.
    by rewrite <- Hcol.
  - intros (r & v & _ & H1 & H2). apply Hp. exists r, c, v.
    by rewrite Nat.add_1_r, <- !Hcol.
Qed.

Lemma locked_rows_unchanged g : locked_rows g → some_row_changes g = false.
Proof.
  intros Hg. destruct (some_row_changes g) eqn:E; [|done].
  apply some_row_changes_Exists, Exists_exists in E as (row & Hin & Hch).
  destruct (Hg row Hin) as [H0 Hadj]. by destruct Hch; apply _merge_line_locked.
Qed.

Lemma row_changes_some g r row :
  g !! r = Some row → (_merge_line row).1 ≠ row → some_row_changes g = true.
Proof.
  intros Hr Hch. apply some_row_changes_Exists, Exists_exists.
  exists row. split; [|done]. by eapply list_elem_of_lookup_2.
Qed.

Lemma gap_row_changes g r row v :
  g !! r = Some row → 0%Z ∈ row → v ∈ row → v ≠ 0%Z →
  some_row_changes g = true ∨ some_row_changes (reverse <$> g) = true.
Proof.
  intros Hr H0 Hin Hv.
  destruct (_merge_line_gap_changes row v H0 Hin Hv) as [Hch|Hch].
  - left. by eapply row_changes_some.
  - right. apply (row_changes_some _ r (reverse row)); [|done].
    by rewrite list_lookup_fmap, Hr.
Qed.

(** On a square grid with an empty cell and a tile, the loop of
    [move_left] changes a row in one of the four directions. *)
Lemma gap_grid_changes n g :
  square n g → has_empty g → has_tile g →
  ∃ dir, some_row_changes (to_left dir g) = true.
Proof.
  intros Hsq (r0 & c0 & H0) (r & c & v & Hcell & Hv).
  pose proof Hcell as (row & Hr & Hc)%cell_Some.
  destruct (cell_lt _ _ _ _ _ Hsq H0) as [Hr0 Hc0].
  destruct (cell_lt _ _ _ _ _ Hsq Hcell) as [Hrn Hcn].
  destruct (decide (0%Z ∈ row)) as [Hz|Hz].
  - destruct (gap_row_changes g r row v Hr Hz) as [H|H];
      [by eapply list_elem_of_lookup_2 | done | by exists Left | by exists Right].
  - destruct (cell_is_Some n g r c0 Hsq Hrn Hc0) as [w Hw].
    assert (w ≠ 0%Z) as Hw0.
    { intros ->. apply Hz. rewrite (cell_row _ _ _ _ Hr) in Hw.
      by eapply list_elem_of_lookup_2. }
    destruct (zip_star_column n g c0 Hsq Hc0) as (col & Hcol & Hcells).
    destruct (gap_row_changes (zip_star g) c0 col w Hcol) as [H|H].
    + apply list_elem_of_lookup. exists r0. by rewrite Hcells.
    + apply list_elem_of_lookup. exists r. by rewrite Hcells.
    + done.
    + by exists Up.
    + by exists Down.
Qed.

End stalemate_grids.

Lemma stalemate_no_move s dir d :
  well_formed s → can_move s = Some false →
  move dir d s = Some (false, s).
Proof.
  intros Hwf Hcm.
  destruct (can_move_spec s Hwf) as (b & Hb & Hiff).
  rewrite Hcm in Hb. injection Hb as <-.
  assert (¬ has_empty (grid s)) as He.
  { intros H. assert (false = true) by (apply Hiff; auto). done. }
  assert (¬ has_row_pair (grid s)) as Hr.
  { intros H. assert (false = true) by (apply Hiff; auto). done. }
  assert (¬ has_column_pair (grid s)) as Hc.
  { intros H. assert (false = true) by (apply Hiff; auto). done. }
  assert (locked_rows (to_left dir (grid s))) as Hlocked.
  { destruct dir; simpl.
    - by apply locked_rows_grid.
    - by apply locked_rows_reverse, locked_rows_grid.
    - by apply (locked_rows_columns (size s)).
    - by apply locked_rows_reverse, (locked_rows_columns (size s)). }
  apply locked_rows_unchanged in Hlocked.
  destruct (move_dir_spec dir d s Hwf) as (s' & Hmv & _ & _ & H).
  rewrite Hlocked in Hmv, H. by subst s'.
Qed.

(** X2.  A well-formed session on which [can_move] answers false is left
    as it is by each of the four moves, which all return false. *)
Theorem stalemate_blocks_moves s dir d :
  well_formed s → can_move s = Some false →
  move dir d s = Some (false, s).
Proof. apply stalemate_no_move. Qed.

Lemma stalemate_blocks_moves_witness :
  well_formed locked_game ∧ can_move locked_game = Some false ∧
  move Up (mkDraw 2 false) locked_game = Some (false, locked_game).
Proof.
  split; [exact well_formed_locked|]. split; [reflexivity|].
  exact (stalemate_blocks_moves locked_game Up (mkDraw 2 false)
           well_formed_locked eq_refl).
Defined.

(** X3.  On a well-formed session that holds a tile and on which
    [can_move] answers true, one of the four moves changes the grid: it
    returns true whatever the random draw. *)
Theorem can_move_allows_move s :
  well_formed s → has_tile (grid s) → can_move s = Some true →
  ∃ dir, ∀ d, ∃ s', move dir d s = Some (true, s').
Proof.
  intros Hwf Htile Hcm.
  destruct (can_move_spec s Hwf) as (b & Hb & Hiff).
  rewrite Hcm in Hb. injection Hb as <-.
  assert (∃ dir, some_row_changes (to_left dir (grid s)) = true)
    as [dir Hch].
  { destruct (proj1 Hiff eq_refl) as [He|[Hp|Hp]].
    - by apply (gap_grid_changes (size s)).
    - destruct Hp as (r & c & v & H1 & H2).
      destruct (decide (v = 0%Z)) as [->|Hv].
      { apply (gap_grid_changes (size s)); [done| |done]. by exists r, c. }
      exists Left. simpl.
      pose proof H1 as (row & Hr & Hc)%cell_Some.
      apply (row_changes_some _ r row Hr), _merge_line_pair_changes.
      exists c, v. split; [done|]. split; [done|].
      by rewrite (cell_row _ _ _ _ Hr), Nat.add_1_r in H2.
    - destruct Hp as (r & c & v & H1 & H2).
      destruct (decide (v = 0%Z)) as [->|Hv].
      { apply (gap_grid_changes (size s)); [done| |done]. by exists r, c. }
      exists Up. simpl.
      destruct (cell_lt _ _ _ _ _ Hwf H1) as [_ Hcn].
      destruct (zip_star_column _ _ c Hwf Hcn) as (col & Hcol & Hcells).
      apply (row_changes_some _ c col Hcol), _merge_line_pair_changes.
      exists r, v. split; [done|]. rewrite !Hcells.
      split; [done|]. by rewrite <- Nat.add_1_r. }
  exists dir. intros d.
  destruct (move_dir_spec dir d s Hwf) as (s' & Hmv & _).
  rewrite Hch in Hmv. by exists s'.
Qed.

Lemma can_move_allows_move_witness :
  well_formed sample_game ∧ has_tile (grid sample_game) ∧
  can_move sample_game = Some true ∧
  ∃ dir, ∀ d, ∃ s', move dir d sample_game = Some (true, s').
Proof.
  assert (has_tile (grid sample_game)) as Htile.
  { exists 0, 0, 2%Z. split; [reflexivity | discriminate]. }
  split; [exact well_formed_sample|]. split; [exact Htile|].
  split; [reflexivity|].
  exact (can_move_allows_move sample_game well_formed_sample Htile eq_refl).
Defined.
Lemma is_win_spec target s :
  well_formed s →
  ∃ b, is_win target s = Some b ∧
       (b = true ↔ ∃ r c v, cell (grid s) r c = Some v ∧ (target ≤ v)%Z).
Proof.
  intros Hwf. unfold is_win.
  edestruct (any_of_spec
    (λ '(r, c), v ← cell (grid s) r c; Some (bool_decide (target ≤ v)%Z))
    (λ rc, ∃ v, cell (grid s) rc.1 rc.2 = Some v ∧ (target ≤ v)%Z)
    (range2 (size s) (size s))) as (b & -> & Hb).
  { intros [r c] [Hr Hc]%elem_of_range2. simpl.
    destruct (cell_is_Some _ _ r c Hwf Hr Hc) as [v ->]. simpl.
    eexists; split; [done|]. rewrite bool_decide_eq_true.
    split; [intros ?; by exists v | by intros (? & [= <-] & ?)]. }
  exists b. split; [done|]. rewrite Hb. split.
  - intros ([r c] & _ & v & H). by exists r, c, v.
  - intros (r & c & v & Hv & Ht). exists (r, c). split; [|by exists v].
    apply elem_of_range2. by eapply cell_lt.
Qed.

(** X1.  On a well-formed session [is_win] returns, and it returns true
    exactly when some cell is at least the target. *)
Theorem is_win_correct target s :
  well_formed s →
  ∃ b, is_win target s = Some b ∧
       (b = true ↔ ∃ r c v, cell (grid s) r c = Some v ∧ (target ≤ v)%Z).
Proof. apply is_win_spec. Qed.

Lemma is_win_correct_witness :
  well_formed sample_game ∧
  ∃ b, is_win 16 sample_game = Some b ∧
       (b = true ↔ ∃ r c v, cell (grid sample_game) r c = Some v ∧ (16 ≤ v)%Z).
Proof.
  split; [exact well_formed_sample|].
  exact (is_win_correct 16 sample_game well_formed_sample).
Defined.

Section gain_facts.
Implicit Types (l line rest : list Z) (a b v : Z).

Lemma line_sum_nonneg l : Forall (λ v, 0 ≤ v)%Z l → (0 ≤ line_sum l)%Z.
Proof. induction 1 as [|a l Ha _ IH]; simpl; lia. Qed.

Lemma scan_from_gain rest : ∀ a,
  Forall (λ v, 0 ≤ v)%Z (a :: rest) →
  (0 ≤ (scan_from a rest).2 ≤ a + line_sum rest)%Z.
Proof.
  induction rest as [|b rest IH]; intros a Hall; simpl.
  - apply Forall_cons in Hall as [Ha _]. lia.
  - apply Forall_cons in Hall as [Ha Hrest].
    pose proof Hrest as [Hb Hrest']%Forall_cons.
    destruct (decide (a ≠ 0%Z ∧ a = b)) as [[_ <-]|_].
    + specialize (IH 0%Z). destruct (scan_from 0 rest) as [l' g']. simpl in *.
      assert (0 ≤ g' ≤ 0 + line_sum rest)%Z by (apply IH; by constructor).
      lia.
    + specialize (IH b Hrest). destruct (scan_from b rest) as [l' g'].
      simpl in *. lia.
Qed.

Lemma _compress_line_packed l i j v :
  i ≤ j → _compress_line l !! i = Some 0%Z → _compress_line l !! j = Some v →
  v = 0%Z.
Proof.
  unfold _compress_line. cbn zeta. intros Hij Hi Hj.
  set (nz := filter (λ v, v ≠ 0%Z) l) in *.
  destruct (decide (i < length nz)) as [Hlt|Hge].
  - rewrite lookup_app_l in Hi by done.
    apply list_elem_of_lookup_2, list_elem_of_filter in Hi as [H0 _]. done.
  - rewrite lookup_app_r in Hj by lia.
    by apply lookup_replicate in Hj as [-> _].
Qed.

End gain_facts.

(** X4.  The score gained by [_merge_line] on a line of non-negative cells
    is between 0 and the sum of the line: each tile is merged at most
    once. *)
Theorem merge_line_gain_bounds line :
  Forall (λ v, 0 ≤ v)%Z line →
  (0 ≤ (_merge_line line).2 ≤ line_sum line)%Z.
Proof.
  intros Hall. rewrite _merge_line_scan. simpl.
  rewrite <- (_compress_line_sum line).
  assert (Forall (λ v, 0 ≤ v)%Z (_compress_line line)) as Hc
    by by apply _compress_line_Forall.
  destruct (_compress_line line) as [|a rest]; [done|].
  by apply scan_from_gain.
Qed.

Lemma merge_line_gain_bounds_witness :
  Forall (λ v, 0 ≤ v)%Z [2; 2; 4; 4]%Z ∧
  (0 ≤ (_merge_line [2; 2; 4; 4]%Z).2 ≤ line_sum [2; 2; 4; 4]%Z)%Z.
Proof.
  assert (Forall (λ v, 0 ≤ v)%Z [2; 2; 4; 4]%Z) as Hall
    by (repeat first [apply Forall_nil_2 | apply Forall_cons_2]; lia).
  split; [exact Hall|].
  exact (merge_line_gain_bounds [2; 2; 4; 4]%Z Hall).
Defined.

(** X5.  Compressing the line returned by [_merge_line] once more changes
    nothing, and in that line no tile comes after an empty cell. *)
Theorem merge_line_packed line :
  _compress_line (_merge_line line).1 = (_merge_line line).1 ∧
  ∀ i j v, i ≤ j →
           (_merge_line line).1 !! i = Some 0%Z →
           (_merge_line line).1 !! j = Some v →
           v = 0%Z.
Proof.
  rewrite _merge_line_scan. simpl. split.
  - apply _compress_line_idemp.
  - intros i j v. apply _compress_line_packed.
Qed.

Lemma merge_line_packed_witness :
  _compress_line (_merge_line [2; 0; 2; 4]%Z).1
  = (_merge_line [2; 0; 2; 4]%Z).1 ∧
  2 ≤ 3 ∧
  (_merge_line [2; 0; 2; 4]%Z).1 !! 2 = Some 0%Z ∧
  (_merge_line [2; 0; 2; 4]%Z).1 !! 3 = Some 0%Z ∧
  0%Z = 0%Z.
Proof.
  assert (2 ≤ 3) as Hij by lia.
  split; [exact (proj1 (merge_line_packed [2; 0; 2; 4]%Z))|].
  split; [exact Hij|]. split; [reflexivity|]. split; [reflexivity|].
  exact (proj2 (merge_line_packed [2; 0; 2; 4]%Z) 2 3 0%Z Hij
           eq_refl eq_refl).
Defined.

Section session_sums.
Implicit Types (g : list (list Z)) (row l : list Z) (s : Game) (n r c : nat) (v : Z).

Lemma line_sum_insert l c x v :
  l !! c = Some x → line_sum (<[c := v]> l) = (line_sum l - x + v)%Z.
Proof.
  revert c. induction l as [|a l IH]; intros [|c] Hc; simplify_eq/=.
  - lia.
  - rewrite (IH c Hc). lia.
Qed.

Lemma grid_sum_set_cell g r c v :
  cell g r c = Some 0%Z →
  grid_sum (set_cell r c v g) = (grid_sum g + v)%Z.
Proof.
  intros (row & Hr & Hc)%cell_Some. unfold set_cell.
  revert r Hr. induction g as [|row' g IH]; intros [|r] Hr; simplify_eq/=.
  - rewrite !grid_sum_cons, (line_sum_insert _ _ 0%Z) by done. lia.
  - rewrite !grid_sum_cons, (IH r Hr). lia.
Qed.

Lemma grid_sum_to_left dir n g :
  square n g → grid_sum (to_left dir g) = grid_sum g.
Proof.
  intros Hsq. destruct dir; simpl.
  - done.
  - apply grid_sum_reverse.
  - apply (grid_sum_zip_star n), Hsq.
  - rewrite grid_sum_reverse. apply (grid_sum_zip_star n), Hsq.
Qed.

Lemma grid_sum_from_left dir n g :
  square n g → grid_sum (from_left dir g) = grid_sum g.
Proof.
  intros Hsq. destruct dir; simpl.
  - done.
  - apply grid_sum_reverse.
  - apply (grid_sum_zip_star n), Hsq.
  - rewrite (grid_sum_zip_star n) by by apply square_reverse.
    apply grid_sum_reverse.
Qed.

Lemma is_tile_nonneg v : is_tile v → (0 ≤ v)%Z.
Proof. intros [->|[k ->]]; [done|]. apply Z.pow_nonneg. lia. Qed.

Lemma gained_sum_bounds g :
  tiles_ok g → (0 ≤ gained_sum g ≤ grid_sum g)%Z.
Proof.
  unfold gained_sum, tiles_ok.
  induction 1 as [|row g Hrow _ IH]; [done|].
  rewrite fmap_cons, grid_sum_cons. simpl.
  assert (0 ≤ (_merge_line row).2 ≤ line_sum row)%Z.
  { rewrite _merge_line_scan. simpl. rewrite <- (_compress_line_sum row).
    assert (Forall (λ v, 0 ≤ v)%Z (_compress_line row)) as Hc.
    { apply _compress_line_Forall; [done|].
      eapply Forall_impl; [done|]. apply is_tile_nonneg. }
    destruct (_compress_line row) as [|a rest]; [done|].
    by apply scan_from_gain. }
  lia.
Qed.

End session_sums.

(** X6.  On a well-formed session whose cells are 0 or powers of two, a
    move never lowers the score, and it raises it by at most the sum of
    the cells of the grid. *)
Theorem move_score_bounds dir d s moved s' :
  well_formed s → tiles_ok (grid s) →
  move dir d s = Some (moved, s') →
  (score s ≤ score s' ≤ score s + grid_sum (grid s))%Z.
Proof.
  intros Hwf Hok Hmv.
  destruct (move_dir_spec dir d s Hwf) as (s'' & Hmv' & _ & _ & H).
  rewrite Hmv in Hmv'. injection Hmv' as -> <-.
  pose proof (gained_sum_bounds (to_left dir (grid s))
                (tiles_ok_to_left dir _ _ Hwf Hok)) as Hg.
  rewrite (grid_sum_to_left dir (size s)) in Hg by done.
  destruct (some_row_changes (to_left dir (grid s))).
  - destruct H as [-> _]. lia.
  - subst s'.
    assert (0 ≤ grid_sum (grid s))%Z by lia. lia.
Qed.

Lemma move_score_bounds_witness :
  well_formed sample_game ∧ tiles_ok (grid sample_game) ∧
  move Left (mkDraw 7 false) sample_game
  = Some (true,
          mkGame 4 [[4; 0; 0; 0]; [0; 0; 0; 0]; [8; 2; 0; 0]; [2; 4; 8; 16]]%Z
                 12) ∧
  (score sample_game ≤ 12 ≤ score sample_game + grid_sum (grid sample_game))%Z.
Proof.
  split; [exact well_formed_sample|]. split; [exact tiles_ok_sample|].
  split; [reflexivity|].
  exact (move_score_bounds Left (mkDraw 7 false) sample_game true _
           well_formed_sample tiles_ok_sample eq_refl).
Defined.

(** X7.  On a well-formed session, a move that returns true raises the sum
    of the cells by exactly the tile it spawns, 2 or 4, and the new grid
    has exactly one tile more than the merged grid. *)
Theorem move_conserves_tiles dir d s s' :
  well_formed s →
  move dir d s = Some (true, s') →
  grid_sum (grid s') = (grid_sum (grid s) + new_tile d)%Z ∧
  (new_tile d = 2 ∨ new_tile d = 4)%Z ∧
  grid_tiles (grid s') = S (grid_tiles (move_grid dir (grid s))).
Proof.
  intros Hwf Hmv.
  destruct (move_dir_spec dir d s Hwf) as (s'' & Hmv' & _ & _ & H).
  rewrite Hmv in Hmv'. injection Hmv' as Hch <-. rewrite <- Hch in H.
  destruct H as (_ & _ & r & c & Hcell & ->).
  fold (move_grid dir (grid s)) in *.
  rewrite grid_sum_set_cell by done.
  rewrite grid_tiles_set_cell by (done || apply new_tile_nonzero).
  split; [|split; [|done]].
  - f_equal. unfold move_grid.
    rewrite (grid_sum_from_left dir (size s))
      by by apply square_merge_grid, square_to_left.
    by rewrite grid_sum_merge_grid, (grid_sum_to_left dir (size s)).
  - unfold new_tile. destruct (lt_one_tenth d); auto.
Qed.

Lemma move_conserves_tiles_witness :
  well_formed sample_game ∧
  move Left (mkDraw 7 false) sample_game
  = Some (true,
          mkGame 4 [[4; 0; 0; 0]; [0; 0; 0; 0]; [8; 2; 0; 0]; [2; 4; 8; 16]]%Z
                 12) ∧
  grid_sum [[4; 0; 0; 0]; [0; 0; 0; 0]; [8; 2; 0; 0]; [2; 4; 8; 16]]%Z
  = (grid_sum (grid sample_game) + new_tile (mkDraw 7 false))%Z ∧
  (new_tile (mkDraw 7 false) = 2 ∨ new_tile (mkDraw 7 false) = 4)%Z ∧
  grid_tiles [[4; 0; 0; 0]; [0; 0; 0; 0]; [8; 2; 0; 0]; [2; 4; 8; 16]]%Z
  = S (grid_tiles (move_grid Left (grid sample_game))).
Proof.
  split; [exact well_formed_sample|]. split; [reflexivity|].
  exact (move_conserves_tiles Left (mkDraw 7 false) sample_game _
           well_formed_sample eq_refl).
Defined.
Section reset_facts.
Implicit Types (g : list (list Z)) (row l : list Z) (s : Game) (n m r c : nat) (v : Z).

Lemma tiles_replicate_0 n : tiles (replicate n 0%Z) = 0.
Proof. unfold tiles. by rewrite filter_nonzero_replicate. Qed.

Lemma grid_tiles_cleared n m : grid_tiles (replicate n (replicate m 0%Z)) = 0.
Proof.
  unfold grid_tiles. induction n as [|n IH]; [done|].
  cbn [replicate fmap list_fmap sum_list sum_list_with].
  rewrite tiles_replicate_0. simpl. exact IH.
Qed.

Lemma grid_sum_cleared n m : grid_sum (replicate n (replicate m 0%Z)) = 0%Z.
Proof.
  induction n as [|n IH]; [done|].
  cbn [replicate]. by rewrite grid_sum_cons, line_sum_replicate_0, IH.
Qed.

(** A grid with fewer tiles than cells has an empty cell. *)
Lemma has_empty_of_tiles m g :
  Forall (λ row, length row = m) g → grid_tiles g < length g * m →
  has_empty g.
Proof.
  unfold grid_tiles. induction 1 as [|row g Hrow _ IH]; simpl; intros Hlt;
    [lia|].
  pose proof (tiles_le_length row).
  destruct (decide (tiles row < length row)) as [Hr|Hr].
  - destruct (tiles_lt_length_zero row Hr) as [c Hc]. by exists 0, c.
  - destruct IH as (r & c & Hc); [unfold fmap in *; lia|]. by exists (S r), c.
Qed.

(** What [reset] returns on a session of size two or more. *)
Lemma reset_spec d1 d2 s :
  2 ≤ size s →
  ∃ s', reset d1 d2 s = Some s' ∧ size s' = size s ∧ score s' = 0%Z ∧
        well_formed s' ∧
        (∃ g1, placed (size s) (new_tile d1) (grid (cleared s)) g1 ∧
               placed (size s) (new_tile d2) g1 (grid s')).
Proof.
  intros Hn.
  destruct (spawn_random_places d1 (cleared s))
    as (_ & s1 & _ & _ & Hsp1 & Hsize1 & Hscore1 & Hpl1).
  { apply square_cleared. }
  { apply has_empty_cleared. lia. }
  simpl in Hsize1, Hscore1, Hpl1.
  destruct (spawn_random_places d2 s1)
    as (_ & s2 & _ & _ & Hsp2 & Hsize2 & Hscore2 & Hpl2).
  { unfold well_formed. rewrite Hsize1. by eapply placed_square. }
  { by eapply has_empty_after_first. }
  rewrite Hsize1 in Hpl2.
  exists s2. unfold reset. fold (cleared s). rewrite Hsp1. simpl.
  split; [done|]. split; [congruence|]. split; [congruence|]. split.
  - unfold well_formed. rewrite Hsize2, Hsize1. by eapply placed_square.
  - by exists (grid s1).
Qed.

End reset_facts.

(** X8.  On a session of size two or more, [reset] returns a well-formed
    session of the same size with score 0 and exactly two tiles, each a 2
    or a 4: their sum is the sum of the two drawn tiles. *)
Theorem reset_two_tiles d1 d2 s :
  2 ≤ size s →
  ∃ s', reset d1 d2 s = Some s' ∧
        size s' = size s ∧ score s' = 0%Z ∧ well_formed s' ∧
        tiles_ok (grid s') ∧ grid_tiles (grid s') = 2 ∧
        grid_sum (grid s') = (new_tile d1 + new_tile d2)%Z.
Proof.
  intros Hn.
  destruct (reset_spec d1 d2 s Hn)
    as (s' & Hr & Hsize & Hscore & Hwf & g1 & Hpl1 & Hpl2).
  exists s'. repeat (split; [done|]).
  pose proof (tiles_ok_placed _ _ _ _ (is_tile_new d1) Hpl1
                (tiles_ok_cleared _)) as Hok1.
  destruct Hpl1 as (_ & r1 & c1 & Hc1 & ->).
  destruct Hpl2 as (_ & r2 & c2 & Hc2 & ->).
  split; [|split].
  - by apply tiles_ok_set_cell; [apply is_tile_new|].
  - rewrite !grid_tiles_set_cell by (done || apply new_tile_nonzero).
    simpl. by rewrite grid_tiles_cleared.
  - rewrite !grid_sum_set_cell by done. simpl.
    rewrite grid_sum_cleared. lia.
Qed.

Lemma reset_two_tiles_witness :
  2 ≤ size sample_game ∧
  ∃ s', reset (mkDraw 5 false) (mkDraw 14 true) sample_game = Some s' ∧
        size s' = size sample_game ∧ score s' = 0%Z ∧ well_formed s' ∧
        tiles_ok (grid s') ∧ grid_tiles (grid s') = 2 ∧
        grid_sum (grid s')
        = (new_tile (mkDraw 5 false) + new_tile (mkDraw 14 true))%Z.
Proof.
  assert (2 ≤ size sample_game) as Hn by (simpl; lia).
  split; [exact Hn|].
  exact (reset_two_tiles (mkDraw 5 false) (mkDraw 14 true) sample_game Hn).
Defined.

(** X9.  On a session of size 0 or 1, [reset] returns the cleared grid with
    the first drawn tile on its only cell, when it has one; the second
    call of [spawn_random] finds no empty cell and places nothing. *)
Theorem reset_small d1 d2 s :
  size s ≤ 1 →
  reset d1 d2 s
  = Some (mkGame (size s) (replicate (size s) [new_tile d1]) 0).
Proof.
  intros Hn. destruct s as [n g sc]. simpl in *.
  destruct n as [|[|n]]; [done| |lia].
  unfold reset, spawn_random. simpl.
  rewrite filter_cons_False by (simpl; apply new_tile_nonzero). done.
Qed.

Lemma reset_small_witness :
  size (mkGame 1 [[8]]%Z 20) ≤ 1 ∧
  reset (mkDraw 3 true) (mkDraw 9 false) (mkGame 1 [[8]]%Z 20)
  = Some (mkGame 1 [[4]]%Z 0).
Proof.
  assert (size (mkGame 1 [[8]]%Z 20) ≤ 1) as Hn by (simpl; lia).
  split; [exact Hn|].
  exact (reset_small (mkDraw 3 true) (mkDraw 9 false) (mkGame 1 [[8]]%Z 20) Hn).
Defined.

(** X10.  On a well-formed session [spawn_random] returns a well-formed
    session with the same size and score.  When the grid has no empty cell
    the session comes back as it was.  Otherwise one cell that was empty
    now reads as the drawn tile, a 2 or a 4, every other cell reads as
    before, and the grid has exactly one tile more. *)
Theorem spawn_random_effect d s :
  well_formed s →
  ∃ s', spawn_random d s = Some s' ∧
        size s' = size s ∧ score s' = score s ∧ well_formed s' ∧
        ((¬ has_empty (grid s) ∧ s' = s) ∨
         (∃ r c, cell (grid s) r c = Some 0%Z ∧
                 cell (grid s') r c = Some (new_tile d) ∧
                 (new_tile d = 2 ∨ new_tile d = 4)%Z ∧
                 grid s' = set_cell r c (new_tile d) (grid s) ∧
                 (∀ r' c', (r', c') ≠ (r, c) →
                           cell (grid s') r' c' = cell (grid s) r' c') ∧
                 grid_tiles (grid s') = S (grid_tiles (grid s)))).
Proof.
  intros Hwf.
  destruct (empty_cells_spec s Hwf) as (empty & He & Hempty).
  destruct empty as [|[r0 c0] empty].
  - exists s. split; [|split; [done|split; [done|split; [done|left]]]].
    + apply spawn_random_full; [done|].
      intros r c Hc. apply Hempty in Hc. by apply elem_of_nil in Hc.
    + split; [|done]. intros (r & c & Hc).
      apply Hempty in Hc. by apply elem_of_nil in Hc.
  - destruct (spawn_random_places d s Hwf)
      as (_ & s' & _ & _ & Hsp & Hsize & Hscore & Hpl).
    { exists r0, c0. apply Hempty. left. }
    exists s'. split; [done|]. split; [done|]. split; [done|].
    split.
    { unfold well_formed. rewrite Hsize. by eapply placed_square. }
    right.
    destruct (placed_read_back _ _ _ _ Hpl (new_tile_nonzero d))
      as (r & c & H0 & Hg & Hv & Hothers & Htiles).
    exists r, c. split; [done|]. split; [done|]. split.
    { unfold new_tile. destruct (lt_one_tenth d); auto. }
    done.
Qed.

Lemma spawn_random_effect_witness :
  well_formed sample_game ∧
  spawn_random (mkDraw 4 true) sample_game
  = Some (mkGame 4 [[2; 2; 0; 0]; [0; 0; 4; 0]; [0; 4; 0; 4];
                    [2; 4; 8; 16]]%Z 0) ∧
  ∃ s', spawn_random (mkDraw 4 true) sample_game = Some s' ∧
        size s' = size sample_game ∧ score s' = score sample_game ∧
        well_formed s' ∧
        ((¬ has_empty (grid sample_game) ∧ s' = sample_game) ∨
         (∃ r c, cell (grid sample_game) r c = Some 0%Z ∧
                 cell (grid s') r c = Some (new_tile (mkDraw 4 true)) ∧
                 (new_tile (mkDraw 4 true) = 2
                  ∨ new_tile (mkDraw 4 true) = 4)%Z ∧
                 grid s' = set_cell r c (new_tile (mkDraw 4 true))
                                    (grid sample_game) ∧
                 (∀ r' c', (r', c') ≠ (r, c) →
                           cell (grid s') r' c'
                           = cell (grid sample_game) r' c') ∧
                 grid_tiles (grid s') = S (grid_tiles (grid sample_game)))).
Proof.
  split; [exact well_formed_sample|]. split; [reflexivity|].
  exact (spawn_random_effect (mkDraw 4 true) sample_game well_formed_sample).
Defined.

Section error_facts.
Implicit Types (g : list (list Z)) (row l : list Z) (s : Game) (n m r c : nat) (v : Z).

Lemma for_each_app {A S} (body : S → A → option S) (st : S) (l1 l2 : list A) :
  for_each body st (l1 ++ l2)
  = st' ← for_each body st l1; for_each body st' l2.
Proof.
  revert st. induction l1 as [|x l1 IH]; intros st; simpl; [done|].
  destruct (body st x) as [st'|]; simpl; [apply IH | done].
Qed.

Lemma mapM_None {A B} (f : A → option B) (l : list A) x :
  x ∈ l → f x = None → mapM f l = None.
Proof.
  intros [i Hi]%list_elem_of_lookup Hx.
  destruct (mapM f l) as [k|] eqn:E; [|done].
  apply mapM_Some_1 in E.
  destruct (Forall2_lookup_l _ _ _ _ _ E Hi) as (y & _ & Hy). congruence.
Qed.

(** With fewer rows than [size], the loop of [move_left] runs out of rows. *)
Lemma merge_rows_short s : length (grid s) < size s → merge_rows s = None.
Proof.
  intros Hlt. unfold merge_rows.
  replace (size s) with (length (grid s) + S (size s - S (length (grid s))))
    by lia.
  rewrite seq_app, for_each_app.
  pose proof (move_row_loop (grid s) [] false 0%Z) as Hloop.
  simpl in Hloop. rewrite Hloop. simpl.
  by rewrite lookup_ge_None_2 by (rewrite merge_grid_length; lia).
Qed.

Lemma empty_cells_short s : length (grid s) < size s → empty_cells s = None.
Proof.
  intros Hlt. unfold empty_cells.
  rewrite (mapM_None _ _ (length (grid s), 0)); [done| |].
  - apply elem_of_range2. lia.
  - unfold cell. simpl. by rewrite lookup_ge_None_2 by lia.
Qed.

End error_facts.

(** X11.  When the grid has fewer rows than [size], the calls that read
    every row raise: [move_left], [move_right] and [spawn_random] do not
    return. *)
Theorem short_grid_raises d s :
  length (grid s) < size s →
  move_left d s = None ∧ move_right d s = None ∧ spawn_random d s = None.
Proof.
  intros Hlt. split; [|split].
  - unfold move_left. by rewrite merge_rows_short.
  - unfold move_right, move_left. cbn zeta.
    rewrite merge_rows_short; [done|]. simpl. by rewrite length_fmap.
  - unfold spawn_random. by rewrite empty_cells_short.
Qed.

Lemma short_grid_raises_witness :
  length (grid (mkGame 4 [[2; 0; 0; 0]; [0; 2; 0; 0]]%Z 0)) < 4 ∧
  move_left (mkDraw 0 false) (mkGame 4 [[2; 0; 0; 0]; [0; 2; 0; 0]]%Z 0) = None ∧
  move_right (mkDraw 0 false) (mkGame 4 [[2; 0; 0; 0]; [0; 2; 0; 0]]%Z 0) = None ∧
  spawn_random (mkDraw 0 false) (mkGame 4 [[2; 0; 0; 0]; [0; 2; 0; 0]]%Z 0)
  = None.
Proof.
  assert (length (grid (mkGame 4 [[2; 0; 0; 0]; [0; 2; 0; 0]]%Z 0)) < 4)
    as Hlt by (simpl; lia).
  split; [exact Hlt|].
  exact (short_grid_raises (mkDraw 0 false)
           (mkGame 4 [[2; 0; 0; 0]; [0; 2; 0; 0]]%Z 0) Hlt).
Defined.

Section ragged_facts.
Implicit Types (g : list (list Z)) (row l : list Z) (n m r c : nat).

Lemma zip_star_ragged_shape g :
  (∀ row, row ∈ g → length (zip_star g) ≤ length row) ∧
  (g ≠ [] → ∃ row, row ∈ g ∧ length (zip_star g) = length row) ∧
  Forall (λ col, length col = length g) (zip_star g).
Proof.
  induction g as [|row g IH]; [by repeat split; [intros ? ?%elem_of_nil|..]|].
  destruct g as [|row2 g].
  - simpl. rewrite length_fmap. split; [|split].
    + by intros ? ->%list_elem_of_singleton.
    + intros _. exists row. split; [left | done].
    + apply Forall_fmap, Forall_forall. done.
  - destruct IH as (IHle & IHex & IHcols).
    destruct IHex as (rowm & Hin & Hm); [done|].
    change (zip_star (row :: row2 :: g))
      with (zip_with cons row (zip_star (row2 :: g))).
    rewrite length_zip_with. split; [|split].
    + intros row' [->|Hin']%elem_of_cons; [lia|].
      specialize (IHle row' Hin'). lia.
    + intros _.
      destruct (decide (length row ≤ length (zip_star (row2 :: g)))).
      * exists row. split; [left | lia].
      * exists rowm. split; [by right | lia].
    + apply Forall_lookup. intros i col Hcol.
      apply lookup_zip_with_Some in Hcol as (x & col' & -> & _ & Hcol').
      rewrite Forall_lookup in IHcols. specialize (IHcols _ _ Hcol').
      simpl in *. by rewrite IHcols.
Qed.

Lemma cell_zip_star_ragged g r c :
  c < length (zip_star g) → cell (zip_star g) c r = cell g r c.
Proof.
  revert r. induction g as [|row g IH]; intros r Hc; [simpl in Hc; lia|].
  destruct g as [|row2 g].
  - unfold cell. simpl. rewrite list_lookup_fmap.
    destruct r as [|r]; simpl; by destruct (row !! c).
  - change (zip_star (row :: row2 :: g))
      with (zip_with cons row (zip_star (row2 :: g))) in *.
    rewrite length_zip_with in Hc.
    unfold cell at 1. rewrite lookup_zip_with.
    destruct (lookup_lt_is_Some_2 row c) as [x Hx]; [lia|].
    destruct (lookup_lt_is_Some_2 (zip_star (row2 :: g)) c) as [col Hcol];
      [lia|].
    rewrite Hx, Hcol. simpl. destruct r as [|r]; simpl.
    + unfold cell. simpl. done.
    + assert (c < length (zip_star (row2 :: g))) as Hc' by lia.
      specialize (IH r Hc'). unfold cell at 1 in IH.
      rewrite Hcol in IH. simpl in IH. rewrite IH. done.
Qed.

End ragged_facts.

(** X12.  On any grid, square or not, the transposed grid has as many rows
    as the shortest row of the grid has cells (none for an empty grid), each
    with one cell per row of the grid, and its cell at row [c] and column
    [r] is the cell of the grid at row [r] and column [c]: the cells beyond
    the shortest row are dropped. *)
Theorem transpose_truncates g row :
  row ∈ g →
  length (zip_star g) ≤ length row ∧
  (∃ row', row' ∈ g ∧ length (zip_star g) = length row') ∧
  Forall (λ col, length col = length g) (zip_star g) ∧
  (∀ r c, c < length (zip_star g) → cell (zip_star g) c r = cell g r c).
Proof.
  intros Hin. destruct (zip_star_ragged_shape g) as (Hle & Hex & Hcols).
  split; [by apply Hle|]. split.
  { apply Hex. intros ->. by apply elem_of_nil in Hin. }
  split; [done|]. intros r c. apply cell_zip_star_ragged.
Qed.

Lemma transpose_truncates_witness :
  [1; 2]%Z ∈ [[1; 2; 3]; [1; 2]]%Z ∧
  length (zip_star [[1; 2; 3]; [1; 2]]%Z) ≤ length [1; 2]%Z ∧
  (∃ row', row' ∈ [[1; 2; 3]; [1; 2]]%Z ∧
           length (zip_star [[1; 2; 3]; [1; 2]]%Z) = length row') ∧
  Forall (λ col, length col = length [[1; 2; 3]; [1; 2]]%Z)
         (zip_star [[1; 2; 3]; [1; 2]]%Z) ∧
  (∀ r c, c < length (zip_star [[1; 2; 3]; [1; 2]]%Z) →
          cell (zip_star [[1; 2; 3]; [1; 2]]%Z) c r
          = cell [[1; 2; 3]; [1; 2]]%Z r c).
Proof.
  assert ([1; 2]%Z ∈ [[1; 2; 3]; [1; 2]]%Z) as Hin by (right; left).
  split; [exact Hin|].
  exact (transpose_truncates [[1; 2; 3]; [1; 2]]%Z [1; 2]%Z Hin).
Defined.
Section fresh_facts.
Implicit Types (g : list (list Z)) (s : Game) (n r c : nat) (v w : Z).

Lemma placed_cells n v g g' r c w :
  placed n v g g' → cell g' r c = Some w → w = v ∨ cell g r c = Some w.
Proof.
  intros (_ & r0 & c0 & H0 & ->). rewrite cell_set_cell.
  case_decide as Hrc; [|by right].
  rewrite H0. simpl. intros [= <-]. by left.
Qed.

(** After [reset] on a session of size two or more, every cell is 0, 2 or
    4 and some cell is empty. *)
Lemma reset_cells d1 d2 s :
  2 ≤ size s →
  ∃ s', reset d1 d2 s = Some s' ∧ size s' = size s ∧ score s' = 0%Z ∧
        well_formed s' ∧ has_empty (grid s') ∧
        ∀ r c w, cell (grid s') r c = Some w → (0 ≤ w ≤ 4)%Z.
Proof.
  intros Hn.
  destruct (reset_spec d1 d2 s Hn)
    as (s' & Hr & Hsize & Hscore & Hwf & g1 & Hpl1 & Hpl2).
  exists s'. repeat (split; [done|]). split.
  - apply (has_empty_of_tiles (size s)).
    + rewrite <- Hsize. apply Hwf.
    + destruct Hwf as [Hlen _]. rewrite Hlen, Hsize.
      destruct Hpl1 as (_ & r1 & c1 & Hc1 & ->).
      destruct Hpl2 as (_ & r2 & c2 & Hc2 & ->).
      rewrite !grid_tiles_set_cell by (done || apply new_tile_nonzero).
      cbn [grid cleared]. rewrite grid_tiles_cleared. nia.
  - assert (∀ d, 0 ≤ new_tile d ≤ 4)%Z as Hnew.
    { intros d. unfold new_tile. destruct (lt_one_tenth d); lia. }
    intros r c w Hw.
    destruct (placed_cells _ _ _ _ _ _ _ Hpl2 Hw) as [->|Hw1]; [done|].
    destruct (placed_cells _ _ _ _ _ _ _ Hpl1 Hw1) as [->|Hw0]; [done|].
    simpl in Hw0. destruct (cell_lt _ _ _ _ _ (square_cleared _) Hw0).
    rewrite cell_cleared in Hw0 by done. injection Hw0 as <-. lia.
Qed.

End fresh_facts.

(** X13.  [Game()], built with the defaults of the dataclass, is a
    well-formed session of size 4 with score 0 and exactly two tiles; on it
    [can_move] answers true and [is_win], with the default target 2048,
    answers false. *)
Theorem new_game_playable d1 d2 :
  ∃ s, new_game d1 d2 = Some s ∧
       size s = GRID_SIZE ∧ score s = 0%Z ∧ well_formed s ∧
       grid_tiles (grid s) = START_TILES ∧
       can_move s = Some true ∧ is_win 2048 s = Some false.
Proof.
  set (s0 := mkGame GRID_SIZE [] 0).
  assert (2 ≤ size s0) as Hn by (simpl; unfold GRID_SIZE; lia).
  destruct (reset_cells d1 d2 s0 Hn)
    as (s & Hr & Hsize & Hscore & Hwf & He & Hcells).
  destruct (reset_spec d1 d2 s0 Hn)
    as (s' & Hr' & _ & _ & _ & g1 & Hpl1 & Hpl2).
  rewrite Hr in Hr'. injection Hr' as <-.
  exists s. split; [exact Hr|]. split; [done|]. split; [done|].
  split; [done|]. split; [|split].
  - destruct Hpl1 as (_ & r1 & c1 & Hc1 & ->).
    destruct Hpl2 as (_ & r2 & c2 & Hc2 & ->).
    rewrite !grid_tiles_set_cell by (done || apply new_tile_nonzero).
    cbn [grid cleared]. by rewrite grid_tiles_cleared.
  - destruct (can_move_spec s Hwf) as (b & -> & Hb).
    f_equal. apply Hb. by left.
  - destruct (is_win_spec 2048 s Hwf) as (b & -> & Hb).
    f_equal. destruct b; [|done].
    destruct (proj1 Hb eq_refl) as (r & c & w & Hw & Hge).
    specialize (Hcells r c w Hw). lia.
Qed.
Section ui_facts.
Implicit Types (ui : GameUI) (g : Game) (d : Draw) (dir : Dir) (ev : list Event).

Lemma draw_cell_events r c val : Forall cell_event (draw_cell r c val).
Proof.
  unfold draw_cell. repeat first [apply Forall_nil_2 | apply Forall_cons_2].
  - done.
  - by destruct (decide (val = 0%Z)).
Qed.

(** [update_ui] returns exactly when the sixteen cells it draws exist. *)
Lemma update_ui_spec ui :
  (∀ r c, r < UI_GRID_SIZE → c < UI_GRID_SIZE →
          is_Some (cell (grid (game ui)) r c)) →
  ∃ cells, Forall cell_event cells ∧
    update_ui ui
    = Some ([ item_text score_text
                        ("Score: " +:+ pretty (score (game ui))) None;
              item_text highscore_text
                        ("Highscore: " +:+ pretty (highscore ui)) None ]
            ++ cells).
Proof.
  intros Hcells. unfold update_ui.
  set (h := λ rc : nat * nat,
         draw_cell rc.1 rc.2 (default 0%Z (cell (grid (game ui)) rc.1 rc.2))).
  rewrite (mapM_total _ h).
  2:{ intros [r c] [Hr Hc]%elem_of_range2. simpl.
      destruct (Hcells r c Hr Hc) as [v Hv]. unfold h. simpl. by rewrite Hv. }
  exists (concat (h <$> range2 UI_GRID_SIZE UI_GRID_SIZE)). split; [|done].
  apply Forall_concat, Forall_fmap, Forall_forall. intros rc _.
  apply draw_cell_events.
Qed.

Lemma update_ui_missing ui r c :
  r < UI_GRID_SIZE → c < UI_GRID_SIZE → cell (grid (game ui)) r c = None →
  update_ui ui = None.
Proof.
  intros Hr Hc Hnone. unfold update_ui.
  rewrite (mapM_None _ _ (r, c)); [done| |].
  - by apply elem_of_range2.
  - simpl. by rewrite Hnone.
Qed.

(** A successful key move on a well-formed session whose grid is large
    enough for the canvas: what is returned and what is emitted. *)
Lemma _key_move_moved dir d ui g :
  well_formed (game ui) → UI_GRID_SIZE ≤ size (game ui) →
  move dir d (game ui) = Some (true, g) →
  ∃ cells won playable,
    Forall cell_event cells ∧
    is_win 2048 g = Some won ∧ can_move g = Some playable ∧
    well_formed g ∧
    _key_move dir d ui
    = Some (mkUI g (Z.max (highscore ui) (score g)),
            [ item_text score_text ("Score: " +:+ pretty (score g)) None;
              item_text highscore_text
                        ("Highscore: " +:+ pretty (highscore ui)) None ]
            ++ cells ++ saved_events (highscore ui) g
            ++ shown_events won playable g).
Proof.
  intros Hwf Hsize Hmv.
  destruct (move_dir_spec dir d (game ui) Hwf) as (g' & Hmv' & Hsz & Hwf' & _).
  rewrite Hmv in Hmv'. injection Hmv' as _ <-.
  destruct (update_ui_spec (mkUI g (highscore ui))) as (cells & Hcells & Hup).
  { intros r c Hr Hc. simpl. apply (cell_is_Some (size g)); [done|lia..]. }
  destruct (is_win_spec 2048 g Hwf') as (won & Hwon & _).
  destruct (can_move_spec g Hwf') as (playable & Hplay & _).
  exists cells, won, playable. repeat (split; [done|]).
  unfold _key_move. rewrite Hmv. simpl in *. rewrite Hup. simpl.
  unfold saved_events, shown_events.
  destruct (decide (highscore ui < score g)%Z) as [Hlt|Hge]; simpl;
    rewrite Hwon; simpl.
  - rewrite Z.max_r by lia. destruct won; simpl; [done|].
    rewrite Hplay. simpl. by destruct playable.
  - rewrite Z.max_l by lia. destruct won; simpl; [done|].
    rewrite Hplay. simpl. by destruct playable.
Qed.

Lemma cell_event_not_saved cells v :
  Forall cell_event cells → highscore_saved v ∉ cells.
Proof. intros Hc Hin. rewrite Forall_forall in Hc. by apply Hc in Hin. Qed.

Lemma cell_event_not_shown cells title m :
  Forall cell_event cells → message_shown title m ∉ cells.
Proof. intros Hc Hin. rewrite Forall_forall in Hc. by apply Hc in Hin. Qed.

Lemma cell_event_not_highscore cells text font :
  Forall cell_event cells → item_text highscore_text text font ∉ cells.
Proof. intros Hc Hin. rewrite Forall_forall in Hc. by apply Hc in Hin. Qed.

End ui_facts.
Lemma well_formed_last_move : well_formed last_move_game.
Proof. split; [done | by repeat constructor]. Defined.

Lemma well_formed_winning : well_formed winning_game.
Proof. split; [done | by repeat constructor]. Defined.

(** X14.  Once [can_move] answers false on the well-formed session of the
    window, a key bound to any of the four moves changes nothing: the
    window is returned as it was and nothing is drawn, saved or shown. *)
Theorem keys_dead_in_stalemate dir d ui :
  well_formed (game ui) → can_move (game ui) = Some false →
  _key_move dir d ui = Some (ui, []).
Proof.
  intros Hwf Hcm. unfold _key_move.
  rewrite (stalemate_no_move _ dir d Hwf Hcm). simpl. by destruct ui.
Qed.

Lemma keys_dead_in_stalemate_witness :
  well_formed (game (mkUI locked_game 0)) ∧
  can_move (game (mkUI locked_game 0)) = Some false ∧
  _key_move Right (mkDraw 1 true) (mkUI locked_game 0)
  = Some (mkUI locked_game 0, []).
Proof.
  split; [exact well_formed_locked|]. split; [reflexivity|].
  exact (keys_dead_in_stalemate Right (mkDraw 1 true) (mkUI locked_game 0)
           well_formed_locked eq_refl).
Defined.

(** X15.  After a key whose move succeeds, on a well-formed session of
    size 4 or more, the high score of the window is the larger of the old
    high score and the new score, and [save_highscore] is called exactly
    when the new score is above the old high score, with the new score. *)
Theorem key_move_highscore dir d ui g :
  well_formed (game ui) → UI_GRID_SIZE ≤ size (game ui) →
  move dir d (game ui) = Some (true, g) →
  ∃ ev, _key_move dir d ui
        = Some (mkUI g (Z.max (highscore ui) (score g)), ev) ∧
        ∀ v, highscore_saved v ∈ ev
             ↔ v = score g ∧ (highscore ui < score g)%Z.
Proof.
  intros Hwf Hsize Hmv.
  destruct (_key_move_moved dir d ui g Hwf Hsize Hmv)
    as (cells & won & playable & Hcells & _ & _ & _ & ->).
  eexists. split; [done|]. intros v.
  rewrite !elem_of_app, !elem_of_cons, elem_of_nil.
  unfold saved_events, shown_events. split.
  - intros [[?|[?|[]]]|[Hin|[Hin|Hin]]]; try done.
    + by apply cell_event_not_saved in Hin.
    + destruct (decide (highscore ui < score g)%Z);
        [|by apply elem_of_nil in Hin].
      apply list_elem_of_singleton in Hin. by simplify_eq.
    + destruct won, playable; by repeat apply elem_of_cons in Hin as [?|Hin];
        try apply elem_of_nil in Hin.
  - intros [-> Hlt]. right. right. left.
    rewrite decide_True by done. left.
Qed.

Lemma key_move_highscore_witness :
  well_formed (game (mkUI sample_game 7)) ∧
  UI_GRID_SIZE ≤ size (game (mkUI sample_game 7)) ∧
  move Left (mkDraw 7 false) (game (mkUI sample_game 7))
  = Some (true,
          mkGame 4 [[4; 0; 0; 0]; [0; 0; 0; 0]; [8; 2; 0; 0]; [2; 4; 8; 16]]%Z
                 12) ∧
  ∃ ev, _key_move Left (mkDraw 7 false) (mkUI sample_game 7)
        = Some (mkUI (mkGame 4 [[4; 0; 0; 0]; [0; 0; 0; 0]; [8; 2; 0; 0];
                                [2; 4; 8; 16]]%Z 12)
                     (Z.max 7 12), ev) ∧
        ∀ v, highscore_saved v ∈ ev ↔ v = 12%Z ∧ (7 < 12)%Z.
Proof.
  assert (UI_GRID_SIZE ≤ size (game (mkUI sample_game 7))) as Hsize
    by (unfold UI_GRID_SIZE; simpl; lia).
  split; [exact well_formed_sample|]. split; [exact Hsize|].
  split; [reflexivity|].
  exact (key_move_highscore Left (mkDraw 7 false) (mkUI sample_game 7) _
           well_formed_sample Hsize eq_refl).
Defined.

(** X16.  [_key_move] redraws before it updates the high score: after a
    key whose move succeeds, the only text given to the high-score item is
    the high score from before the move, also when the move has beaten
    it. *)
Theorem key_move_draws_old_highscore dir d ui g :
  well_formed (game ui) → UI_GRID_SIZE ≤ size (game ui) →
  move dir d (game ui) = Some (true, g) →
  ∃ ui' ev, _key_move dir d ui = Some (ui', ev) ∧
    highscore ui' = Z.max (highscore ui) (score g) ∧
    ∀ text font, item_text highscore_text text font ∈ ev
                 ↔ text = "Highscore: " +:+ pretty (highscore ui)
                   ∧ font = None.
Proof.
  intros Hwf Hsize Hmv.
  destruct (_key_move_moved dir d ui g Hwf Hsize Hmv)
    as (cells & won & playable & Hcells & _ & _ & _ & ->).
  eexists _, _. split; [done|]. split; [done|]. intros text font.
  rewrite !elem_of_app, !elem_of_cons, elem_of_nil.
  unfold saved_events, shown_events. split.
  - intros [[?|[?|[]]]|[Hin|[Hin|Hin]]]; try done.
    + by simplify_eq.
    + by apply cell_event_not_highscore in Hin.
    + destruct (decide (highscore ui < score g)%Z);
        by repeat apply elem_of_cons in Hin as [?|Hin];
        try apply elem_of_nil in Hin.
    + destruct won, playable; by repeat apply elem_of_cons in Hin as [?|Hin];
        try apply elem_of_nil in Hin.
  - intros [-> ->]. left. right. by left.
Qed.

Lemma key_move_draws_old_highscore_witness :
  well_formed (game (mkUI sample_game 7)) ∧
  UI_GRID_SIZE ≤ size (game (mkUI sample_game 7)) ∧
  move Left (mkDraw 7 false) (game (mkUI sample_game 7))
  = Some (true,
          mkGame 4 [[4; 0; 0; 0]; [0; 0; 0; 0]; [8; 2; 0; 0]; [2; 4; 8; 16]]%Z
                 12) ∧
  ∃ ui' ev, _key_move Left (mkDraw 7 false) (mkUI sample_game 7)
            = Some (ui', ev) ∧
    highscore ui' = Z.max 7 12 ∧
    ∀ text font, item_text highscore_text text font ∈ ev
                 ↔ text = "Highscore: " +:+ pretty 7%Z ∧ font = None.
Proof.
  assert (UI_GRID_SIZE ≤ size (game (mkUI sample_game 7))) as Hsize
    by (unfold UI_GRID_SIZE; simpl; lia).
  split; [exact well_formed_sample|]. split; [exact Hsize|].
  split; [reflexivity|].
  exact (key_move_draws_old_highscore Left (mkDraw 7 false)
           (mkUI sample_game 7) _ well_formed_sample Hsize eq_refl).
Defined.
(** X17.  When a key makes [_key_move] show "Game Over", on a well-formed
    session of size 4 or more, [can_move] answers false on the session of
    the window that is returned, and from then on every key bound to a
    move leaves that window as it is and emits nothing. *)
Theorem game_over_is_final dir d ui ui' ev m :
  well_formed (game ui) → UI_GRID_SIZE ≤ size (game ui) →
  _key_move dir d ui = Some (ui', ev) →
  message_shown "Game Over" m ∈ ev →
  can_move (game ui') = Some false ∧
  ∀ dir' d', _key_move dir' d' ui' = Some (ui', []).
Proof.
  intros Hwf Hsize Hkm Hin.
  destruct (move_dir_spec dir d (game ui) Hwf) as (g & Hmv & _).
  destruct (some_row_changes (to_left dir (grid (game ui)))).
  - destruct (_key_move_moved dir d ui g Hwf Hsize Hmv)
      as (cells & won & playable & Hcells & _ & Hplay & Hwf' & Hkm').
    rewrite Hkm in Hkm'. injection Hkm' as -> ->.
    assert (playable = false) as ->.
    { revert Hin. rewrite !elem_of_cons, !elem_of_app.
      unfold saved_events, shown_events.
      intros [?|[?|[Hin|[Hin|Hin]]]]; try done.
      - by apply cell_event_not_shown in Hin.
      - destruct (decide (highscore ui < score g)%Z);
          by repeat apply elem_of_cons in Hin as [?|Hin];
          try apply elem_of_nil in Hin.
      - destruct won, playable; try done;
          by repeat apply elem_of_cons in Hin as [?|Hin];
          try apply elem_of_nil in Hin. }
    simpl. split; [done|]. intros dir' d'. unfold _key_move. simpl.
    by rewrite (stalemate_no_move g dir' d' Hwf' Hplay).
  - unfold _key_move in Hkm. rewrite Hmv in Hkm. simpl in Hkm.
    injection Hkm as _ <-. by apply elem_of_nil in Hin.
Qed.

Lemma game_over_is_final_witness :
  well_formed (game (mkUI last_move_game 0)) ∧
  UI_GRID_SIZE ≤ size (game (mkUI last_move_game 0)) ∧
  (∃ ui' ev,
     _key_move Left (mkDraw 0 false) (mkUI last_move_game 0) = Some (ui', ev) ∧
     message_shown "Game Over" (game_over_message 0) ∈ ev ∧
     can_move (game ui') = Some false ∧
     ∀ dir' d', _key_move dir' d' ui' = Some (ui', [])).
Proof.
  assert (UI_GRID_SIZE ≤ size (game (mkUI last_move_game 0))) as Hsize
    by (unfold UI_GRID_SIZE; simpl; lia).
  split; [exact well_formed_last_move|]. split; [exact Hsize|].
  assert (∃ ui' ev,
            _key_move Left (mkDraw 0 false) (mkUI last_move_game 0)
            = Some (ui', ev) ∧
            message_shown "Game Over" (game_over_message 0) ∈ ev)
    as (ui' & ev & Hkm & Hin).
  { eexists _, _. split; [reflexivity|].
    apply (list_elem_of_lookup_2 _ 34). reflexivity. }
  exists ui', ev. split; [exact Hkm|]. split; [exact Hin|].
  exact (game_over_is_final Left (mkDraw 0 false) (mkUI last_move_game 0)
           ui' ev _ well_formed_last_move Hsize Hkm Hin).
Defined.

(** X18.  After a key whose move succeeds and leaves a cell of 2048 or
    more on the grid, [_key_move] shows "You Win!" and never "Game Over",
    whether or not a move is left. *)
Theorem win_hides_game_over dir d ui g r c v :
  well_formed (game ui) → UI_GRID_SIZE ≤ size (game ui) →
  move dir d (game ui) = Some (true, g) →
  cell (grid g) r c = Some v → (2048 ≤ v)%Z →
  ∃ ui' ev, _key_move dir d ui = Some (ui', ev) ∧
            message_shown "You Win!" win_message ∈ ev ∧
            ∀ m, message_shown "Game Over" m ∉ ev.
Proof.
  intros Hwf Hsize Hmv Hcell Hv.
  destruct (_key_move_moved dir d ui g Hwf Hsize Hmv)
    as (cells & won & playable & Hcells & Hwon & _ & Hwf' & ->).
  assert (won = true) as ->.
  { destruct (is_win_spec 2048 g Hwf') as (b & Hb & Hiff).
    rewrite Hwon in Hb. injection Hb as <-. apply Hiff. by exists r, c, v. }
  eexists _, _. split; [done|]. split.
  - rewrite !elem_of_app. right. right. right. left.
  - intros m. rewrite !elem_of_app, !elem_of_cons, elem_of_nil.
    unfold saved_events, shown_events.
    intros [[?|[?|[]]]|[Hin|[Hin|Hin]]]; try done.
    + by apply cell_event_not_shown in Hin.
    + destruct (decide (highscore ui < score g)%Z);
        by repeat apply elem_of_cons in Hin as [?|Hin];
        try apply elem_of_nil in Hin.
    + by repeat apply elem_of_cons in Hin as [?|Hin];
        try apply elem_of_nil in Hin.
Qed.

Lemma win_hides_game_over_witness :
  well_formed (game (mkUI winning_game 0)) ∧
  UI_GRID_SIZE ≤ size (game (mkUI winning_game 0)) ∧
  move Left (mkDraw 0 false) (game (mkUI winning_game 0))
  = Some (true,
          mkGame 4 [[2048; 2; 0; 0]; [0; 0; 0; 0]; [0; 0; 0; 0];
                    [0; 0; 0; 0]]%Z 2048) ∧
  cell [[2048; 2; 0; 0]; [0; 0; 0; 0]; [0; 0; 0; 0]; [0; 0; 0; 0]]%Z 0 0
  = Some 2048%Z ∧
  (2048 ≤ 2048)%Z ∧
  ∃ ui' ev, _key_move Left (mkDraw 0 false) (mkUI winning_game 0)
            = Some (ui', ev) ∧
            message_shown "You Win!" win_message ∈ ev ∧
            ∀ m, message_shown "Game Over" m ∉ ev.
Proof.
  assert (UI_GRID_SIZE ≤ size (game (mkUI winning_game 0))) as Hsize
    by (unfold UI_GRID_SIZE; simpl; lia).
  assert (2048 ≤ 2048)%Z as Hv by lia.
  split; [exact well_formed_winning|]. split; [exact Hsize|].
  split; [reflexivity|]. split; [reflexivity|]. split; [exact Hv|].
  exact (win_hides_game_over Left (mkDraw 0 false) (mkUI winning_game 0)
           _ 0 0 2048%Z well_formed_winning Hsize eq_refl eq_refl Hv).
Defined.

(** X19.  [update_ui] reads the first 4 rows and columns of the grid: on a
    well-formed session it returns exactly when the size is 4 or more.
    With a smaller size, every key whose move succeeds stops in
    [update_ui] with an [IndexError]. *)
Theorem update_ui_needs_size ui :
  well_formed (game ui) →
  (is_Some (update_ui ui) ↔ UI_GRID_SIZE ≤ size (game ui)) ∧
  (size (game ui) < UI_GRID_SIZE →
   ∀ dir d g, move dir d (game ui) = Some (true, g) →
              _key_move dir d ui = None).
Proof.
  intros Hwf.
  assert (∀ ui0, well_formed (game ui0) → size (game ui0) < UI_GRID_SIZE →
                 update_ui ui0 = None) as Hsmall.
  { intros ui0 [Hlen _] Hlt.
    apply (update_ui_missing ui0 (size (game ui0)) 0);
      [done | unfold UI_GRID_SIZE; lia |].
    unfold cell. by rewrite lookup_ge_None_2 by lia. }
  split; [split|].
  - intros Hsome.
    destruct (decide (UI_GRID_SIZE ≤ size (game ui))) as [|Hlt]; [done|].
    rewrite Hsmall in Hsome by (done || lia). by destruct Hsome.
  - intros Hsize. destruct (update_ui_spec ui) as (cells & _ & ->); [|done].
    intros r c Hr Hc. apply (cell_is_Some (size (game ui))); [done|lia..].
  - intros Hlt dir d g Hmv.
    destruct (move_dir_spec dir d (game ui) Hwf) as (g' & Hmv' & Hsz & Hwf' & _).
    rewrite Hmv in Hmv'. injection Hmv' as _ <-.
    unfold _key_move. rewrite Hmv. simpl.
    rewrite (Hsmall (mkUI g (highscore ui))); [done..|]. simpl. lia.
Qed.

Lemma update_ui_needs_size_witness :
  well_formed (game (mkUI (mkGame 2 [[2; 0]; [2; 0]]%Z 0) 0)) ∧
  (is_Some (update_ui (mkUI (mkGame 2 [[2; 0]; [2; 0]]%Z 0) 0))
   ↔ UI_GRID_SIZE ≤ size (game (mkUI (mkGame 2 [[2; 0]; [2; 0]]%Z 0) 0))) ∧
  (size (game (mkUI (mkGame 2 [[2; 0]; [2; 0]]%Z 0) 0)) < UI_GRID_SIZE →
   ∀ dir d g,
     move dir d (game (mkUI (mkGame 2 [[2; 0]; [2; 0]]%Z 0) 0))
     = Some (true, g) →
     _key_move dir d (mkUI (mkGame 2 [[2; 0]; [2; 0]]%Z 0) 0) = None).
Proof.
  assert (well_formed (game (mkUI (mkGame 2 [[2; 0]; [2; 0]]%Z 0) 0)))
    as Hwf by (split; [done | by repeat constructor]).
  split; [exact Hwf|].
  exact (update_ui_needs_size (mkUI (mkGame 2 [[2; 0]; [2; 0]]%Z 0) 0) Hwf).
Defined.

Section restart_facts.

Lemma reset_tile_count d1 d2 s :
  2 ≤ size s →
  ∃ s', reset d1 d2 s = Some s' ∧ size s' = size s ∧ score s' = 0%Z ∧
        well_formed s' ∧ grid_tiles (grid s') = 2.
Proof.
  intros Hn.
  destruct (reset_spec d1 d2 s Hn)
    as (s' & Hr & Hsize & Hscore & Hwf & g1 & Hpl1 & Hpl2).
  exists s'. repeat (split; [done|]).
  destruct Hpl1 as (_ & r1 & c1 & Hc1 & ->).
  destruct Hpl2 as (_ & r2 & c2 & Hc2 & ->).
  rewrite !grid_tiles_set_cell by (done || apply new_tile_nonzero).
  cbn [grid cleared]. by rewrite grid_tiles_cleared.
Qed.

End restart_facts.

(** X20.  [restart], on a window whose session has size 4 or more, returns
    a window with a fresh session (score 0, two tiles) and the high score
    it had; it redraws, and neither saves the high score nor shows a
    message. *)
Theorem restart_keeps_highscore d1 d2 ui :
  UI_GRID_SIZE ≤ size (game ui) →
  ∃ ui' ev, restart d1 d2 ui = Some (ui', ev) ∧
    highscore ui' = highscore ui ∧
    size (game ui') = size (game ui) ∧ score (game ui') = 0%Z ∧
    well_formed (game ui') ∧ grid_tiles (grid (game ui')) = 2 ∧
    (∀ v, highscore_saved v ∉ ev) ∧ (∀ title m, message_shown title m ∉ ev).
Proof.
  intros Hsize.
  destruct (reset_tile_count d1 d2 (game ui))
    as (g & Hr & Hsz & Hscore & Hwf & Htiles).
  { unfold UI_GRID_SIZE in Hsize. lia. }
  destruct (update_ui_spec (mkUI g (highscore ui))) as (cells & Hcells & Hup).
  { intros r c Hr' Hc'. simpl. apply (cell_is_Some (size g)); [done|lia..]. }
  unfold restart. rewrite Hr. simpl. rewrite Hup. simpl.
  eexists _, _. split; [done|]. simpl. repeat (split; [done|]). split.
  - intros v. rewrite !elem_of_cons.
    intros [?|[?|Hin]]; [done..|]. by apply cell_event_not_saved in Hin.
  - intros title m. rewrite !elem_of_cons.
    intros [?|[?|Hin]]; [done..|]. by apply cell_event_not_shown in Hin.
Qed.

Lemma restart_keeps_highscore_witness :
  UI_GRID_SIZE ≤ size (game (mkUI locked_game 40)) ∧
  ∃ ui' ev,
    restart (mkDraw 5 false) (mkDraw 14 true) (mkUI locked_game 40)
    = Some (ui', ev) ∧
    highscore ui' = 40%Z ∧
    size (game ui') = 4 ∧ score (game ui') = 0%Z ∧
    well_formed (game ui') ∧ grid_tiles (grid (game ui')) = 2 ∧
    (∀ v, highscore_saved v ∉ ev) ∧ (∀ title m, message_shown title m ∉ ev).
Proof.
  assert (UI_GRID_SIZE ≤ size (game (mkUI locked_game 40))) as Hsize
    by (unfold UI_GRID_SIZE; simpl; lia).
  split; [exact Hsize|].
  exact (restart_keeps_highscore (mkDraw 5 false) (mkDraw 14 true)
           (mkUI locked_game 40) Hsize).
Defined.
